(** * The virtual try-on workflow of [src/App.tsx]

    A shallow embedding of the [App] component: its six pieces of React
    state, the file encoder [fileToImageInfo], the two upload handlers,
    [handleGenerate], and the interval effect that rotates the loading
    message.

    Asynchronous functions are embedded as resumable procedures ([proc]):
    a procedure runs synchronously up to its next [await], where it is
    parked together with its continuation; the event loop later resumes it
    with the outcome of the awaited promise.  The outcomes of the two
    external promises (the [FileReader] and [generateVirtualTryOnImage])
    are inputs of the model.

    State is tracked at the granularity of the setter calls: every
    [setX(v)] yields a new [AppState].  All setters of the component are
    called with plain values (never with an updater function), so a
    procedure's writes do not depend on the state they land in.  Which of
    the states between two setter calls of one synchronous run React
    renders depends on how it batches updates; the order of the calls is
    what the source fixes, and the loading effect, which depends on
    [isLoading] alone, ends up the same either way since no synchronous
    run writes [isLoading] twice. *)

From Stdlib Require Import String Ascii List Bool Arith PeanoNat Lia.
Import ListNotations.
Local Open Scope string_scope.

(** ** JavaScript strings and arrays *)

Module Js.

(** [s.split(sep)] for a one-character separator: the pieces of [s]
    between the occurrences of [sep], in order.  The result is never
    empty: a string without separator is its own single piece. *)
Fixpoint split (sep : ascii) (s : string) : list string :=
  match s with
  | EmptyString => [EmptyString]
  | String ch rest =>
      if Ascii.eqb ch sep then EmptyString :: split sep rest
      else match split sep rest with
           | piece :: pieces => String ch piece :: pieces
           | [] => [String ch EmptyString]
           end
  end.

(** [xs[i]]: [None] stands for [undefined] (index out of range). *)
Definition index {A : Type} (xs : list A) (i : nat) : option A :=
  nth_error xs i.

(** No character of [s] is [ch]. *)
Fixpoint lacks (ch : ascii) (s : string) : bool :=
  match s with
  | EmptyString => true
  | String c rest => negb (Ascii.eqb c ch) && lacks ch rest
  end.

(** The base64 alphabet of a data URL: letters, digits, [+], [/] and the
    padding [=]. *)
Definition is_base64_char (c : ascii) : bool :=
  let n := nat_of_ascii c in
  (((65 <=? n) && (n <=? 90)) || ((97 <=? n) && (n <=? 122))
   || ((48 <=? n) && (n <=? 57)) || (n =? 43) || (n =? 47) || (n =? 61))%nat.

Fixpoint is_base64 (s : string) : bool :=
  match s with
  | EmptyString => true
  | String c rest => is_base64_char c && is_base64 rest
  end.

End Js.

Definition comma : ascii := ","%char.

(** ** Data model *)

(** [ImageInfo] of [./types], as [fileToImageInfo] builds it.  [base64] is
    the second piece of a split and so may be [undefined] ([None]). *)
Record ImageInfo : Type := mkImageInfo {
  base64 : option string;
  mimeType : string;
  name : string
}.

(** The part of a DOM [File] the component reads. *)
Record File : Type := mkFile {
  file_type : string;
  file_name : string
}.

(** The event handed to [reader.onerror]. *)
Inductive ReadFailure : Type :=
| ProgressEvent (event_type : string).

(** How [reader.readAsDataURL(file)] ends: [onload] with [reader.result],
    or [onerror]. *)
Inductive ReadOutcome : Type :=
| Loaded (result : string)
| ReadError (e : ReadFailure).

(** A value a promise can reject with: an instance of [Error] carrying a
    [message], or any other value. *)
Inductive Thrown : Type :=
| ErrorInstance (message : string)
| NotAnError (shown : string)
| ReadRejected (e : ReadFailure).

(** How [generateVirtualTryOnImage(personImage, clothImage)] settles. *)
Inductive GenOutcome : Type :=
| Resolved (generatedImage : string)
| Rejected (e : Thrown).

(** The six [useState] cells.  [loadingMessage] holds an element of
    [LOADING_MESSAGES], [undefined] ([None]) if the index is out of range. *)
Record AppState : Type := mkAppState {
  personImage : option ImageInfo;
  clothImage : option ImageInfo;
  resultImage : option string;
  isLoading : bool;
  error : option string;
  loadingMessage : option string
}.

(** A call of one of the six setters. *)
Inductive Setter : Type :=
| setPersonImage (v : option ImageInfo)
| setClothImage (v : option ImageInfo)
| setResultImage (v : option string)
| setIsLoading (v : bool)
| setError (v : option string)
| setLoadingMessage (v : option string).

Definition set (a : Setter) (s : AppState) : AppState :=
  match a with
  | setPersonImage v =>
      mkAppState v (clothImage s) (resultImage s) (isLoading s) (error s)
                 (loadingMessage s)
  | setClothImage v =>
      mkAppState (personImage s) v (resultImage s) (isLoading s) (error s)
                 (loadingMessage s)
  | setResultImage v =>
      mkAppState (personImage s) (clothImage s) v (isLoading s) (error s)
                 (loadingMessage s)
  | setIsLoading v =>
      mkAppState (personImage s) (clothImage s) (resultImage s) v (error s)
                 (loadingMessage s)
  | setError v =>
      mkAppState (personImage s) (clothImage s) (resultImage s) (isLoading s)
                 v (loadingMessage s)
  | setLoadingMessage v =>
      mkAppState (personImage s) (clothImage s) (resultImage s) (isLoading s)
                 (error s) v
  end.

(** ** Asynchronous procedures *)

(** The body of an [async] function of the component. *)
Inductive proc : Type :=
| Return : proc
| Throw (e : Thrown) : proc
| Call (a : Setter) (next : proc) : proc
| ConsoleError (e : Thrown) (next : proc) : proc
| AwaitGenerate (person cloth : ImageInfo) (next : GenOutcome -> proc) : proc
| AwaitRead (file : File) (next : ReadOutcome -> proc) : proc.

(** What a procedure does that the outside can see. *)
Inductive Effect : Type :=
| Wrote (a : Setter)
| Logged (e : Thrown)
| Invoked (person cloth : ImageInfo)
| Reading (file : File).

(** Where a synchronous run stops. *)
Inductive Status : Type :=
| Fulfilled
| RejectedWith (e : Thrown)
| AwaitingGenerate (next : GenOutcome -> proc)
| AwaitingRead (next : ReadOutcome -> proc).

(** Run a procedure up to its next [await] (or its end). *)
Fixpoint run (p : proc) : list Effect * Status :=
  match p with
  | Return => ([], Fulfilled)
  | Throw e => ([], RejectedWith e)
  | Call a next => let (effs, st) := run next in (Wrote a :: effs, st)
  | ConsoleError e next => let (effs, st) := run next in (Logged e :: effs, st)
  | AwaitGenerate person cloth next =>
      ([Invoked person cloth], AwaitingGenerate next)
  | AwaitRead file next => ([Reading file], AwaitingRead next)
  end.

Definition effect (e : Effect) (s : AppState) : AppState :=
  match e with
  | Wrote a => set a s
  | Logged _ | Invoked _ _ | Reading _ => s
  end.

(** The state after [effs], and every state on the way (the first one
    included). *)
Definition after (effs : list Effect) (s : AppState) : AppState :=
  fold_left (fun st e => effect e st) effs s.

Fixpoint states (effs : list Effect) (s : AppState) : list AppState :=
  s :: match effs with
       | [] => []
       | e :: rest => states rest (effect e s)
       end.

(** The calls of [generateVirtualTryOnImage] among some effects. *)
Definition invocations (effs : list Effect) : list (ImageInfo * ImageInfo) :=
  flat_map (fun e => match e with
                     | Invoked p c => [(p, c)]
                     | _ => []
                     end) effs.

(** The values written to [isLoading] among some effects. *)
Definition loading_writes (effs : list Effect) : list bool :=
  flat_map (fun e => match e with
                     | Wrote (setIsLoading v) => [v]
                     | _ => []
                     end) effs.

(** ** The component's functions *)

(** [fileToImageInfo(file)], given how the read ends: the settled value of
    the promise it returns. *)
Definition fileToImageInfo (file : File) (r : ReadOutcome)
  : ReadFailure + ImageInfo :=
  match r with
  | Loaded result =>
      let base64 := Js.index (Js.split comma result) 1 in
      inr (mkImageInfo base64 (file_type file) (file_name file))
  | ReadError e => inl e
  end.

(** [await fileToImageInfo(file)] followed by [use info]; a rejection
    leaves the enclosing [async] function through its own rejection. *)
Definition awaitFileToImageInfo (file : File) (use : ImageInfo -> proc) : proc :=
  AwaitRead file (fun r =>
    match fileToImageInfo file r with
    | inr info => use info
    | inl e => Throw (ReadRejected e)
    end).

Definition handlePersonImageUpload (file : option File) : proc :=
  match file with
  | Some f =>
      awaitFileToImageInfo f (fun info =>
        Call (setPersonImage (Some info)) Return)
  | None => Call (setPersonImage None) Return
  end.

Definition handleClothImageUpload (file : option File) : proc :=
  match file with
  | Some f =>
      awaitFileToImageInfo f (fun info =>
        Call (setClothImage (Some info)) Return)
  | None => Call (setClothImage None) Return
  end.

Definition validationMessage : string :=
  "Please upload both your photo and a clothing item photo.".

Definition failurePrefix : string := "Failed to generate image. ".

(** [e instanceof Error ? e.message : "An unknown error occurred."] *)
Definition errorMessage (e : Thrown) : string :=
  match e with
  | ErrorInstance message => message
  | NotAnError _ | ReadRejected _ => "An unknown error occurred."
  end.

(** [handleGenerate], as created by the render that saw state [s]: the
    callback closes over that render's [personImage] and [clothImage]. *)
Definition handleGenerate (s : AppState) : proc :=
  match personImage s, clothImage s with
  | Some person, Some cloth =>
      Call (setIsLoading true)
      (Call (setResultImage None)
      (Call (setError None)
      (AwaitGenerate person cloth (fun outcome =>
         match outcome with
         | Resolved generatedImage =>
             Call (setResultImage (Some generatedImage))
             (Call (setIsLoading false) Return)
         | Rejected e =>
             ConsoleError e
             (Call (setError (Some (failurePrefix ++ errorMessage e)))
             (Call (setIsLoading false) Return))
         end))))
  | _, _ => Call (setError (Some validationMessage)) Return
  end.

(** ** The component as a reactive system *)

(** The interval created by the loading effect: the effect's local
    [messageIndex], and the time since the interval was created or last
    fired. *)
Record Interval : Type := mkInterval {
  messageIndex : nat;
  sinceFire : nat
}.

(** The mounted component: its state, the live interval if any, and the
    procedures parked at an [await]. *)
Record World : Type := mkWorld {
  app : AppState;
  interval : option Interval;
  parked : list Status
}.

(** The period of the interval, in milliseconds. *)
Definition period : nat := 2500.

Inductive Input : Type :=
| SelectPerson (file : option File)
| SelectCloth (file : option File)
| ClickGenerate
| ReadSettles (n : nat) (r : ReadOutcome)
| GenerationSettles (n : nat) (o : GenOutcome)
| Elapse (dt : nat).

(** [disabled={!personImage || !clothImage || isLoading}] *)
Definition buttonDisabled (s : AppState) : bool :=
  match personImage s, clothImage s with
  | Some _, Some _ => isLoading s
  | _, _ => true
  end.

(** The body of the effect: the interval it creates, if any. *)
Definition loadingEffect (loading : bool) : option Interval :=
  if loading then Some (mkInterval 0 0) else None.

(** The effect depends on [isLoading] alone: when a write changes it, the
    clean-up of the previous run clears that run's interval and the body
    runs again. *)
Definition rerunEffect (previous : bool) (w : World) : World :=
  if Bool.eqb previous (isLoading (app w)) then w
  else mkWorld (app w) (loadingEffect (isLoading (app w))) (parked w).

Definition perform (e : Effect) (w : World) : World :=
  rerunEffect (isLoading (app w))
              (mkWorld (effect e (app w)) (interval w) (parked w)).

Definition performAll (effs : list Effect) (w : World) : World :=
  fold_left (fun w' e => perform e w') effs w.

Definition park (st : Status) (w : World) : World :=
  match st with
  | AwaitingGenerate _ | AwaitingRead _ =>
      mkWorld (app w) (interval w) (parked w ++ [st])%list
  | Fulfilled | RejectedWith _ => w
  end.

(** Start (or resume) a procedure and park it if it awaits. *)
Definition start (p : proc) (w : World) : World :=
  let (effs, st) := run p in park st (performAll effs w).

Fixpoint remove_nth {A : Type} (n : nat) (xs : list A) : list A :=
  match n, xs with
  | _, [] => []
  | 0, _ :: rest => rest
  | S m, x :: rest => x :: remove_nth m rest
  end.

Definition unpark (n : nat) (w : World) : World :=
  mkWorld (app w) (interval w) (remove_nth n (parked w)).

Section Messages.

(** [LOADING_MESSAGES] of [./constants]: the module is imported by
    [App.tsx] but its text is not part of the sources at hand, so the
    array is a parameter of the development. *)
Variable LOADING_MESSAGES : list string.

(** The state of the first render. *)
Definition initialState : AppState :=
  mkAppState None None None false None (Js.index LOADING_MESSAGES 0).

(** After mounting, the effect has run with [isLoading = false]. *)
Definition mounted : World := mkWorld initialState (loadingEffect false) [].

(** One firing of the interval's callback.  For an empty array
    JavaScript computes [NaN] as index and reads [undefined]; here the
    index stays a number, and the read is [None] all the same. *)
Definition tick (i : nat) (s : AppState) : nat * AppState :=
  let i' := (i + 1) mod length LOADING_MESSAGES in
  (i', set (setLoadingMessage (Js.index LOADING_MESSAGES i')) s).

Fixpoint ticks (n : nat) (i : nat) (s : AppState) : nat * AppState :=
  match n with
  | 0 => (i, s)
  | S m => let (i', s') := tick i s in ticks m i' s'
  end.

(** [dt] milliseconds pass: a live interval fires once per full period. *)
Definition elapse (dt : nat) (w : World) : World :=
  match interval w with
  | None => w
  | Some t =>
      let total := sinceFire t + dt in
      let (i', s') := ticks (total / period) (messageIndex t) (app w) in
      mkWorld s' (Some (mkInterval i' (total mod period))) (parked w)
  end.

(** The index and the message after [fires] firings of an interval
    whose index is [i], when the message shown is [current]. *)
Definition index_after (fires i : nat) : nat :=
  match fires with
  | 0 => i
  | S _ => (i + fires) mod length LOADING_MESSAGES
  end.

Definition message_after (fires i : nat) (current : option string)
  : option string :=
  match fires with
  | 0 => current
  | S _ => Js.index LOADING_MESSAGES ((i + fires) mod length LOADING_MESSAGES)
  end.

Definition step (i : Input) (w : World) : World :=
  match i with
  | SelectPerson file => start (handlePersonImageUpload file) w
  | SelectCloth file => start (handleClothImageUpload file) w
  | ClickGenerate =>
      if buttonDisabled (app w) then w
      else start (handleGenerate (app w)) w
  | ReadSettles n r =>
      match nth_error (parked w) n with
      | Some (AwaitingRead next) => start (next r) (unpark n w)
      | _ => w
      end
  | GenerationSettles n o =>
      match nth_error (parked w) n with
      | Some (AwaitingGenerate next) => start (next o) (unpark n w)
      | _ => w
      end
  | Elapse dt => elapse dt w
  end.

Definition play (inputs : list Input) (w : World) : World :=
  fold_left (fun w' i => step i w') inputs w.

End Messages.

(** ** One generation request, from the click to the settled call *)

(** What else can happen while [generateVirtualTryOnImage] is outstanding:
    the upload handlers read files and write the two image slots, and the
    interval writes the loading message.  ([handleGenerate] itself is the
    only writer of [resultImage], [isLoading] and [error], and its button
    is disabled while [isLoading] holds.) *)
Definition bystander (e : Effect) : bool :=
  match e with
  | Wrote (setPersonImage _) | Wrote (setClothImage _)
  | Wrote (setLoadingMessage _) | Reading _ => true
  | Wrote (setResultImage _) | Wrote (setIsLoading _) | Wrote (setError _)
  | Logged _ | Invoked _ _ => false
  end.

(** Everything that happens between the call of [handleGenerate] in state
    [s] and its return: its synchronous part, what happens [meanwhile],
    and its continuation resumed with the outcome [o]. *)
Definition generation (s : AppState) (meanwhile : list Effect) (o : GenOutcome)
  : list Effect :=
  let (effs, st) := run (handleGenerate s) in
  match st with
  | AwaitingGenerate next => (effs ++ meanwhile ++ fst (run (next o)))%list
  | _ => effs
  end.

(** A sequence of values without its repetitions: what is left are the
    values between which the sequence changes. *)
Fixpoint changes (bs : list bool) : list bool :=
  match bs with
  | [] => []
  | b :: rest =>
      match rest with
      | [] => [b]
      | b' :: _ => if Bool.eqb b b' then changes rest else b :: changes rest
      end
  end.

(** The synchronous part of [handleGenerate] past the guard. *)
Definition opening (person cloth : ImageInfo) : list Effect :=
  [Wrote (setIsLoading true); Wrote (setResultImage None);
   Wrote (setError None); Invoked person cloth].

(** The continuation of [handleGenerate] after its [await]. *)
Definition closing (o : GenOutcome) : list Effect :=
  match o with
  | Resolved generatedImage =>
      [Wrote (setResultImage (Some generatedImage)); Wrote (setIsLoading false)]
  | Rejected e =>
      [Logged e; Wrote (setError (Some (failurePrefix ++ errorMessage e)));
       Wrote (setIsLoading false)]
  end.

(** ** Sample values *)

Definition portrait : ImageInfo :=
  mkImageInfo (Some "AAAA") "image/png" "portrait.png".

Definition shirt : ImageInfo :=
  mkImageInfo (Some "BBBB") "image/jpeg" "shirt.jpg".

(** A state with both slots filled, left by an earlier request that
    failed. *)
Definition ready : AppState :=
  mkAppState (Some portrait) (Some shirt) None false
             (Some "Failed to generate image. timeout") (Some "Warming up").

(** Both images are uploaded and read. *)
Definition uploads : list Input :=
  [SelectPerson (Some (mkFile "image/png" "portrait.png"));
   ReadSettles 0 (Loaded "data:image/png;base64,AAAA");
   SelectCloth (Some (mkFile "image/jpeg" "shirt.jpg"));
   ReadSettles 0 (Loaded "data:image/jpeg;base64,BBBB")].

(** Two requests in a row: after the uploads a first generation takes one
    full period and succeeds, and the button is clicked again. *)
Definition two_requests : list Input :=
  (uploads ++
   [ClickGenerate;
    Elapse 2500;
    GenerationSettles 0 (Resolved "data:image/png;base64,XYZ");
    ClickGenerate])%list.

(** The interval is live exactly while [isLoading] holds. *)
Definition timed (w : World) : Prop :=
  match interval w with
  | Some _ => isLoading (app w) = true
  | None => isLoading (app w) = false
  end.

(** ** What the running component keeps true *)

Definition awaits_generation (st : Status) : bool :=
  match st with
  | AwaitingGenerate _ => true
  | Fulfilled | RejectedWith _ | AwaitingRead _ => false
  end.

(** The number of calls of [generateVirtualTryOnImage] that have not
    settled yet. *)
Definition outstanding (w : World) : nat :=
  length (filter awaits_generation (parked w)).

(** What an upload handler does: read a file, write an image slot. *)
Definition slot_effect (e : Effect) : bool :=
  match e with
  | Wrote (setPersonImage _) | Wrote (setClothImage _) | Reading _ => true
  | Wrote (setResultImage _) | Wrote (setIsLoading _) | Wrote (setError _)
  | Wrote (setLoadingMessage _) | Logged _ | Invoked _ _ => false
  end.

Definition settled (st : Status) : bool :=
  match st with
  | Fulfilled | RejectedWith _ => true
  | AwaitingGenerate _ | AwaitingRead _ => false
  end.

(** A parked procedure is the rest of [handleGenerate] or the rest of an
    upload handler. *)
Definition well_parked (st : Status) : Prop :=
  match st with
  | AwaitingGenerate next => forall o, run (next o) = (closing o, Fulfilled)
  | AwaitingRead next =>
      forall r, forallb slot_effect (fst (run (next r))) = true
                /\ settled (snd (run (next r))) = true
  | Fulfilled | RejectedWith _ => False
  end.

Record sound (messages : list string) (w : World) : Prop := mkSound {
  sound_timed : timed w;
  sound_parked : Forall well_parked (parked w);
  sound_outstanding : outstanding w = if isLoading (app w) then 1 else 0;
  sound_loading :
    isLoading (app w) = true ->
    resultImage (app w) = None /\ error (app w) = None;
  sound_exclusive : resultImage (app w) = None \/ error (app w) = None;
  sound_error :
    forall shown, error (app w) = Some shown ->
                  exists e, shown = failurePrefix ++ errorMessage e;
  sound_message :
    exists i, loadingMessage (app w) = Js.index messages i
              /\ (messages <> [] -> i < length messages);
  sound_interval :
    forall t, interval w = Some t ->
              sinceFire t < period
              /\ (messages <> [] -> messageIndex t < length messages)
}.

(** ** Inputs during and between loading cycles *)




(** * Properties *)

(** ** The encoder *)

Lemma split_lacks (sep : ascii) (s : string) :
  Js.lacks sep s = true -> Js.split sep s = [s].
Proof.
  induction s as [|ch rest IH]; simpl; intros H.
  - reflexivity.
  - apply andb_true_iff in H as [Hch Hrest].
    apply negb_true_iff in Hch. rewrite Hch, (IH Hrest). reflexivity.
Qed.

Lemma split_first_piece (sep : ascii) (header rest : string) :
  Js.lacks sep header = true ->
  Js.split sep (header ++ String sep rest) = header :: Js.split sep rest.
Proof.
  induction header as [|ch header IH]; simpl; intros H.
  - rewrite Ascii.eqb_refl. reflexivity.
  - apply andb_true_iff in H as [Hch Hheader].
    apply negb_true_iff in Hch. rewrite Hch, (IH Hheader). reflexivity.
Qed.

Lemma base64_lacks_comma (s : string) :
  Js.is_base64 s = true -> Js.lacks comma s = true.
Proof.
  induction s as [|ch rest IH]; simpl; intros H.
  - reflexivity.
  - apply andb_true_iff in H as [Hch Hrest].
    rewrite (IH Hrest), andb_true_r.
    destruct (Ascii.eqb_spec ch comma) as [->|_]; [discriminate Hch|reflexivity].
Qed.

(** The claim of C7 fails as stated.  A file whose type contains a comma
    is read successfully, and the data URL's header then has a comma of
    its own: the text stored as [base64] is the rest of the header, not
    the payload. *)
Lemma header_piece_stored_as_base64 :
  let file := mkFile "image/png;a=b,c" "portrait.png" in
  let result := "data:" ++ file_type file ++ ";base64," ++ "AAAA" in
  fileToImageInfo file (Loaded result)
  = inr (mkImageInfo (Some "c;base64") "image/png;a=b,c" "portrait.png")
  /\ Some "c;base64" <> Some "AAAA".
Proof. split; [reflexivity|discriminate]. Qed.

(** C7, amended.  Every successful read makes [fileToImageInfo] resolve
    with an [ImageInfo] whose [mimeType] is the file's type and whose
    [name] is the file's name.  When the reader's result is a header
    without comma, a comma, and a payload without comma (as every base64
    payload is), [base64] is the payload alone: the header and the comma
    are gone. *)
Theorem fileToImageInfo_strips_header (file : File) (result : string) :
  exists info,
    fileToImageInfo file (Loaded result) = inr info
    /\ mimeType info = file_type file
    /\ name info = file_name file
    /\ (forall header payload,
          Js.lacks comma header = true ->
          Js.lacks comma payload = true ->
          result = header ++ "," ++ payload ->
          base64 info = Some payload)
    /\ (forall header payload,
          Js.lacks comma header = true ->
          Js.is_base64 payload = true ->
          result = header ++ "," ++ payload ->
          base64 info = Some payload).
Proof.
  eexists. split; [reflexivity|]. split; [reflexivity|]. split; [reflexivity|].
  assert (Hstrip : forall header payload,
             Js.lacks comma header = true ->
             Js.lacks comma payload = true ->
             result = header ++ "," ++ payload ->
             Js.index (Js.split comma result) 1 = Some payload).
  { intros header payload Hheader Hpayload ->.
    change ("," ++ payload) with (String comma payload).
    rewrite (split_first_piece comma header payload Hheader).
    rewrite (split_lacks comma payload Hpayload). reflexivity. }
  split.
  - exact Hstrip.
  - intros header payload Hheader Hpayload.
    exact (Hstrip header payload Hheader (base64_lacks_comma payload Hpayload)).
Qed.

Lemma fileToImageInfo_strips_header_witness :
  exists info,
    fileToImageInfo (mkFile "image/png" "portrait.png")
                    (Loaded "data:image/png;base64,iVBORw0KGgo=")
    = inr info
    /\ mimeType info = "image/png"
    /\ name info = "portrait.png"
    /\ base64 info = Some "iVBORw0KGgo=".
Proof.
  destruct (fileToImageInfo_strips_header
              (mkFile "image/png" "portrait.png")
              "data:image/png;base64,iVBORw0KGgo=")
    as (info & Hinfo & Htype & Hname & _ & Hbase64).
  exists info. split; [exact Hinfo|]. split; [exact Htype|].
  split; [exact Hname|].
  exact (Hbase64 "data:image/png;base64" "iVBORw0KGgo=" eq_refl eq_refl eq_refl).
Defined.

(** ** Uploads *)

Lemma nth_error_last {A : Type} (xs : list A) (x : A) :
  nth_error (xs ++ [x])%list (length xs) = Some x.
Proof. induction xs as [|y ys IH]; simpl; [reflexivity|exact IH]. Qed.

Lemma remove_nth_last {A : Type} (xs : list A) (x : A) :
  remove_nth (length xs) (xs ++ [x])%list = xs.
Proof.
  induction xs as [|y ys IH]; simpl; [reflexivity|rewrite IH; reflexivity].
Qed.

(** C9.  When the read of an uploaded file fails, [fileToImageInfo] yields
    the failure and no [ImageInfo]; the upload handler, resumed with the
    failure, calls no setter and rejects with that same failure; and in
    the running component the whole upload, from the selection of the file
    to the failed read, leaves the state (both slots included) and the
    interval as they were. *)
Theorem failed_read_leaves_slot (file : File) (e : ReadFailure) :
  fileToImageInfo file (ReadError e) = inl e
  /\ (forall handler,
        handler = handlePersonImageUpload \/ handler = handleClothImageUpload ->
        exists next,
          run (handler (Some file)) = ([Reading file], AwaitingRead next)
          /\ run (next (ReadError e)) = ([], RejectedWith (ReadRejected e)))
  /\ (forall (messages : list string) (w : World) (select : Input),
        select = SelectPerson (Some file) \/ select = SelectCloth (Some file) ->
        let reading := step messages select w in
        let failed :=
          step messages (ReadSettles (length (parked w)) (ReadError e)) reading in
        app reading = app w
        /\ app failed = app w
        /\ interval failed = interval w
        /\ parked failed = parked w).
Proof.
  split; [reflexivity|]. split.
  - intros handler [-> | ->]; eexists; split; reflexivity.
  - intros messages w select Hsel reading failed.
    pose proof (nth_error_last (parked w)) as Hnth.
    pose proof (remove_nth_last (parked w)) as Hrem.
    destruct Hsel as [-> | ->]; subst reading failed; simpl;
      unfold start; simpl; unfold perform, rerunEffect; simpl;
      rewrite Bool.eqb_reflx; simpl; rewrite Hnth;
      unfold start, unpark; simpl; rewrite Hrem;
      destruct w; repeat split; reflexivity.
Qed.

(** ** The validation guard *)

Lemma perform_same_loading (e : Effect) (w : World) :
  isLoading (effect e (app w)) = isLoading (app w) ->
  perform e w = mkWorld (effect e (app w)) (interval w) (parked w).
Proof.
  intros H. unfold perform, rerunEffect. simpl.
  rewrite H, Bool.eqb_reflx. reflexivity.
Qed.

Lemma perform_other_loading (e : Effect) (w : World) :
  isLoading (effect e (app w)) = negb (isLoading (app w)) ->
  perform e w
  = mkWorld (effect e (app w)) (loadingEffect (negb (isLoading (app w))))
            (parked w).
Proof.
  intros H. unfold perform, rerunEffect. simpl.
  rewrite H. destruct (isLoading (app w)); reflexivity.
Qed.

Lemma handleGenerate_guard (s : AppState) :
  personImage s = None \/ clothImage s = None ->
  handleGenerate s = Call (setError (Some validationMessage)) Return.
Proof.
  unfold handleGenerate. intros [H | H]; rewrite H.
  - reflexivity.
  - destruct (personImage s); reflexivity.
Qed.

(** C2.  Called in a state where [personImage] or [clothImage] is absent,
    [handleGenerate] does exactly one thing, the write of the validation
    message to [error], and is done: [generateVirtualTryOnImage] is not
    invoked, nothing is written to [isLoading], and [isLoading] is what it
    was. *)
Theorem guard_sets_validation_error (s : AppState) :
  personImage s = None \/ clothImage s = None ->
  let (effs, status) := run (handleGenerate s) in
  status = Fulfilled
  /\ invocations effs = []
  /\ loading_writes effs = []
  /\ error (after effs s)
     = Some "Please upload both your photo and a clothing item photo."
  /\ isLoading (after effs s) = isLoading s.
Proof.
  intros H. rewrite (handleGenerate_guard s H). simpl.
  repeat split; reflexivity.
Qed.

Lemma guard_sets_validation_error_witness :
  let s := mkAppState None None None false None (Some "Warming up") in
  let (effs, status) := run (handleGenerate s) in
  status = Fulfilled
  /\ invocations effs = []
  /\ loading_writes effs = []
  /\ error (after effs s)
     = Some "Please upload both your photo and a clothing item photo."
  /\ isLoading (after effs s) = isLoading s.
Proof.
  apply (guard_sets_validation_error
           (mkAppState None None None false None (Some "Warming up"))).
  left. reflexivity.
Defined.

(** C10.  A call of [handleGenerate] stopped by the guard changes [error]
    and nothing else: both slots, [resultImage] (a result of an earlier
    generation stays next to the validation message), [isLoading] and
    [loadingMessage] keep their values, and in the running component the
    interval and the parked procedures are untouched. *)
Theorem guard_changes_error_only (s : AppState) :
  personImage s = None \/ clothImage s = None ->
  let s' := after (fst (run (handleGenerate s))) s in
  personImage s' = personImage s
  /\ clothImage s' = clothImage s
  /\ resultImage s' = resultImage s
  /\ isLoading s' = isLoading s
  /\ loadingMessage s' = loadingMessage s
  /\ error s' = Some validationMessage
  /\ (forall w, app w = s ->
        start (handleGenerate s) w = mkWorld s' (interval w) (parked w)).
Proof.
  intros H. rewrite (handleGenerate_guard s H). simpl.
  repeat split.
  intros w <-. unfold start. simpl.
  apply perform_same_loading. reflexivity.
Qed.

Lemma guard_changes_error_only_witness :
  let s := mkAppState None
             (Some (mkImageInfo (Some "BBBB") "image/jpeg" "shirt.jpg"))
             (Some "data:image/png;base64,XYZ") false None (Some "Warming up") in
  resultImage (after (fst (run (handleGenerate s))) s)
  = Some "data:image/png;base64,XYZ"
  /\ error (after (fst (run (handleGenerate s))) s) = Some validationMessage.
Proof.
  pose proof (guard_changes_error_only
                (mkAppState None
                   (Some (mkImageInfo (Some "BBBB") "image/jpeg" "shirt.jpg"))
                   (Some "data:image/png;base64,XYZ") false None
                   (Some "Warming up"))
                (or_introl eq_refl)) as H.
  split; [exact (proj1 (proj2 (proj2 H)))|].
  exact (proj1 (proj2 (proj2 (proj2 (proj2 (proj2 H)))))).
Defined.

(** ** A generation request *)

Lemma handleGenerate_awaits (s : AppState) (person cloth : ImageInfo) :
  personImage s = Some person ->
  clothImage s = Some cloth ->
  exists next,
    run (handleGenerate s) = (opening person cloth, AwaitingGenerate next)
    /\ forall o, run (next o) = (closing o, Fulfilled).
Proof.
  intros Hp Hc. unfold handleGenerate. rewrite Hp, Hc.
  eexists. split; [reflexivity|].
  intros [image | e]; reflexivity.
Qed.

Lemma generation_unfolded (s : AppState) (person cloth : ImageInfo)
      (meanwhile : list Effect) (o : GenOutcome) :
  personImage s = Some person ->
  clothImage s = Some cloth ->
  generation s meanwhile o
  = (opening person cloth ++ meanwhile ++ closing o)%list.
Proof.
  intros Hp Hc. unfold generation, handleGenerate. rewrite Hp, Hc.
  destruct o; reflexivity.
Qed.

Lemma after_app (xs ys : list Effect) (s : AppState) :
  after (xs ++ ys) s = after ys (after xs s).
Proof. apply fold_left_app. Qed.

Lemma bystanders_keep (meanwhile : list Effect) :
  forallb bystander meanwhile = true ->
  forall s,
    resultImage (after meanwhile s) = resultImage s
    /\ isLoading (after meanwhile s) = isLoading s
    /\ error (after meanwhile s) = error s.
Proof.
  induction meanwhile as [|e rest IH]; simpl; intros H s.
  - repeat split.
  - apply andb_true_iff in H as [He Hrest].
    destruct (IH Hrest (effect e s)) as (Hr & Hl & Herr).
    unfold after in *. simpl. rewrite Hr, Hl, Herr.
    destruct e as [[]| | |]; try discriminate He; repeat split.
Qed.

Lemma bystanders_invoke_nothing (meanwhile : list Effect) :
  forallb bystander meanwhile = true ->
  invocations meanwhile = [] /\ loading_writes meanwhile = [].
Proof.
  induction meanwhile as [|e rest IH]; simpl; intros H.
  - split; reflexivity.
  - apply andb_true_iff in H as [He Hrest].
    destruct (IH Hrest) as [Hi Hl]. rewrite Hi, Hl.
    destruct e as [[]| | |]; try discriminate He; split; reflexivity.
Qed.

Lemma invocations_app (xs ys : list Effect) :
  invocations (xs ++ ys) = (invocations xs ++ invocations ys)%list.
Proof. apply flat_map_app. Qed.

Lemma loading_writes_app (xs ys : list Effect) :
  loading_writes (xs ++ ys) = (loading_writes xs ++ loading_writes ys)%list.
Proof. apply flat_map_app. Qed.

(** C1.  A call of [handleGenerate] with both slots present invokes
    [generateVirtualTryOnImage] once, with the two images.  If the call
    resolves with an image, the final state has that image as
    [resultImage] and no [error].  If it fails, the final state has as
    [error] the prefix followed by the failure's message, or by the fixed
    fallback text when the failure is not an [Error] and so has no
    message, and has no [resultImage]. *)
Theorem generation_outcome (s : AppState) (person cloth : ImageInfo)
        (meanwhile : list Effect) (o : GenOutcome) :
  personImage s = Some person ->
  clothImage s = Some cloth ->
  forallb bystander meanwhile = true ->
  let final := after (generation s meanwhile o) s in
  invocations (generation s meanwhile o) = [(person, cloth)]
  /\ match o with
     | Resolved generatedImage =>
         resultImage final = Some generatedImage /\ error final = None
     | Rejected e =>
         error final = Some ("Failed to generate image. " ++ errorMessage e)
         /\ resultImage final = None
         /\ match e with
            | ErrorInstance message =>
                error final = Some ("Failed to generate image. " ++ message)
            | _ =>
                error final
                = Some "Failed to generate image. An unknown error occurred."
            end
     end.
Proof.
  intros Hp Hc Hm final. subst final.
  rewrite (generation_unfolded s person cloth meanwhile o Hp Hc).
  split.
  - rewrite !invocations_app.
    rewrite (proj1 (bystanders_invoke_nothing meanwhile Hm)).
    destruct o; reflexivity.
  - rewrite !after_app.
    destruct (bystanders_keep meanwhile Hm (after (opening person cloth) s))
      as (Hr & _ & He).
    set (waiting := after meanwhile (after (opening person cloth) s)) in *.
    destruct o as [image | e].
    + split; [reflexivity|]. change (error waiting = None).
      rewrite He. reflexivity.
    + assert (Hresult : resultImage (after (closing (Rejected e)) waiting) = None).
      { change (resultImage waiting = None). rewrite Hr. reflexivity. }
      repeat split; try exact Hresult. destruct e; reflexivity.
Qed.

Lemma generation_outcome_witness :
  error (after (generation ready [Wrote (setLoadingMessage (Some "Stitching"))]
                           (Rejected (ErrorInstance "quota exceeded"))) ready)
  = Some "Failed to generate image. quota exceeded".
Proof.
  pose proof (generation_outcome ready portrait shirt
                [Wrote (setLoadingMessage (Some "Stitching"))]
                (Rejected (ErrorInstance "quota exceeded"))
                eq_refl eq_refl eq_refl) as H.
  exact (proj1 (proj2 H)).
Defined.

(** C3.  A call of [handleGenerate] with both slots present writes
    [isLoading], then clears [resultImage] and [error], and only then
    invokes [generateVirtualTryOnImage] and waits.  Whatever [error] and
    [resultImage] the state had, both are absent when the call is parked
    and stay absent until the outcome arrives: the writes of the outcome
    come after, in a state where both are absent. *)
Theorem request_clears_previous (s : AppState) (person cloth : ImageInfo) :
  personImage s = Some person ->
  clothImage s = Some cloth ->
  exists next,
    run (handleGenerate s)
    = ([Wrote (setIsLoading true); Wrote (setResultImage None);
        Wrote (setError None); Invoked person cloth], AwaitingGenerate next)
    /\ forall meanwhile,
         forallb bystander meanwhile = true ->
         let parked_in := after (opening person cloth) s in
         let resumed_in := after meanwhile parked_in in
         resultImage parked_in = None /\ error parked_in = None
         /\ resultImage resumed_in = None /\ error resumed_in = None
         /\ forall o,
              generation s meanwhile o
              = (opening person cloth ++ meanwhile ++ fst (run (next o)))%list
              /\ after (generation s meanwhile o) s
                 = after (fst (run (next o))) resumed_in.
Proof.
  intros Hp Hc.
  destruct (handleGenerate_awaits s person cloth Hp Hc) as (next & Hrun & Hnext).
  exists next. split; [exact Hrun|].
  intros meanwhile Hm parked_in resumed_in.
  destruct (bystanders_keep meanwhile Hm parked_in) as (Hr & _ & He).
  repeat split; try reflexivity.
  - subst resumed_in. rewrite Hr. reflexivity.
  - subst resumed_in. rewrite He. reflexivity.
  - rewrite Hnext. apply generation_unfolded; assumption.
  - rewrite Hnext, (generation_unfolded s person cloth meanwhile o Hp Hc).
    rewrite !after_app. reflexivity.
Qed.

Lemma request_clears_previous_witness :
  exists next,
    run (handleGenerate ready)
    = ([Wrote (setIsLoading true); Wrote (setResultImage None);
        Wrote (setError None); Invoked portrait shirt], AwaitingGenerate next)
    /\ error (after (opening portrait shirt) ready) = None.
Proof.
  destruct (request_clears_previous ready portrait shirt eq_refl eq_refl)
    as (next & Hrun & Hrest).
  exists next. split; [exact Hrun|].
  exact (proj1 (proj2 (Hrest [] eq_refl))).
Defined.

(** ** The loading flag *)

Lemma states_head (effs : list Effect) (s : AppState) :
  exists rest, states effs s = s :: rest.
Proof. destruct effs; eexists; reflexivity. Qed.

Lemma changes_repeated (b : bool) (rest : list bool) :
  changes (b :: b :: rest) = changes (b :: rest).
Proof. simpl. rewrite Bool.eqb_reflx. reflexivity. Qed.

Lemma bystander_keeps_loading (e : Effect) (s : AppState) :
  bystander e = true -> isLoading (effect e s) = isLoading s.
Proof. destruct e as [[]| | |]; simpl; intros H; try discriminate H; reflexivity. Qed.

Lemma changes_skip_bystanders (meanwhile rest : list Effect) :
  forallb bystander meanwhile = true ->
  forall s,
    changes (map isLoading (states (meanwhile ++ rest) s))
    = changes (map isLoading (states rest (after meanwhile s))).
Proof.
  induction meanwhile as [|e more IH]; intros H s.
  - reflexivity.
  - simpl in H. apply andb_true_iff in H as [He Hmore].
    change (after (e :: more) s) with (after more (effect e s)).
    rewrite <- (IH Hmore (effect e s)).
    change (states ((e :: more) ++ rest) s)
      with (s :: states (more ++ rest) (effect e s)).
    destruct (states_head (more ++ rest) (effect e s)) as [tail ->].
    cbn [map]. rewrite (bystander_keeps_loading e s He).
    apply changes_repeated.
Qed.

(** C4.  A call of [handleGenerate] with both slots present writes
    [isLoading] exactly twice, [true] and then [false], whether the call
    of the service succeeds or fails, and ends with [isLoading = false]:
    no path leaves it [true].  Started with [isLoading = false] (the
    button that calls it is disabled while [isLoading] holds), the values
    [isLoading] takes over the whole request are [false], [true], [false],
    each change happening once. *)
Theorem loading_flag_once (s : AppState) (person cloth : ImageInfo)
        (meanwhile : list Effect) (o : GenOutcome) :
  personImage s = Some person ->
  clothImage s = Some cloth ->
  forallb bystander meanwhile = true ->
  loading_writes (generation s meanwhile o) = [true; false]
  /\ isLoading (after (generation s meanwhile o) s) = false
  /\ (isLoading s = false ->
      changes (map isLoading (states (generation s meanwhile o) s))
      = [false; true; false]).
Proof.
  intros Hp Hc Hm.
  rewrite (generation_unfolded s person cloth meanwhile o Hp Hc).
  split; [|split].
  - rewrite !loading_writes_app.
    rewrite (proj2 (bystanders_invoke_nothing meanwhile Hm)).
    destruct o; reflexivity.
  - rewrite !after_app. destruct o; reflexivity.
  - intros Hidle.
    change (opening person cloth ++ meanwhile ++ closing o)%list
      with (Wrote (setIsLoading true) :: Wrote (setResultImage None)
            :: Wrote (setError None) :: Invoked person cloth
            :: (meanwhile ++ closing o))%list.
    cbn [states map effect]. rewrite Hidle.
    set (waiting := set (setError None)
                      (set (setResultImage None) (set (setIsLoading true) s))).
    change (isLoading (set (setIsLoading true) s)) with true.
    change (isLoading (set (setResultImage None) (set (setIsLoading true) s)))
      with true.
    change (isLoading waiting) with true.
    destruct (states_head (meanwhile ++ closing o) waiting) as [tail Htail].
    assert (Hchanges : changes (map isLoading (states (meanwhile ++ closing o) waiting))
                       = [true; false]).
    { rewrite (changes_skip_bystanders meanwhile (closing o) Hm waiting).
      destruct (bystanders_keep meanwhile Hm waiting) as (_ & Hl & _).
      change (isLoading waiting) with true in Hl.
      destruct o; cbn [closing states map effect]; rewrite ?Hl; simpl;
        rewrite ?Hl; reflexivity. }
    rewrite Htail in *. cbn [map] in *.
    change (isLoading waiting) with true in Hchanges.
    change (isLoading waiting) with true.
    change (false :: changes (true :: true :: true :: true :: map isLoading tail)
            = [false; true; false]).
    rewrite !changes_repeated, Hchanges. reflexivity.
Qed.

Lemma loading_flag_once_witness :
  changes (map isLoading
             (states (generation ready [Wrote (setLoadingMessage (Some "Stitching"))]
                                 (Resolved "data:image/png;base64,XYZ")) ready))
  = [false; true; false].
Proof.
  exact (proj2 (proj2 (loading_flag_once ready portrait shirt
                         [Wrote (setLoadingMessage (Some "Stitching"))]
                         (Resolved "data:image/png;base64,XYZ")
                         eq_refl eq_refl eq_refl)) eq_refl).
Defined.

(** ** Error and loading flag *)

(** The claim of C6 fails as stated.  When the call of the service fails,
    the [catch] block writes [error] and the [finally] block resets
    [isLoading] after it: between the two writes the state has
    [isLoading = true] together with the error of this very request. *)
Lemma error_written_while_loading :
  let failure := Rejected (ErrorInstance "quota exceeded") in
  fst (run (handleGenerate ready)) = opening portrait shirt
  /\ closing failure
     = [Logged (ErrorInstance "quota exceeded");
        Wrote (setError (Some "Failed to generate image. quota exceeded"));
        Wrote (setIsLoading false)]
  /\ exists st,
       nth_error (states (generation ready [] failure) ready) 6 = Some st
       /\ isLoading st = true
       /\ error st = Some "Failed to generate image. quota exceeded".
Proof.
  repeat split. eexists. repeat split.
Qed.

Lemma bystanders_wait (meanwhile : list Effect) :
  forallb bystander meanwhile = true ->
  forall s st,
    In st (states meanwhile s) ->
    isLoading st = isLoading s /\ error st = error s.
Proof.
  induction meanwhile as [|e rest IH]; simpl; intros H s st Hin.
  - destruct Hin as [<- | []]. split; reflexivity.
  - apply andb_true_iff in H as [He Hrest].
    destruct Hin as [<- | Hin]; [split; reflexivity|].
    destruct (IH Hrest (effect e s) st Hin) as [Hl Herr].
    rewrite Hl, Herr.
    destruct e as [[]| | |]; try discriminate He; split; reflexivity.
Qed.

(** C6, amended.  For a call of [handleGenerate] with both slots present:
    from the moment the call is parked at its [await] until it is resumed,
    [isLoading] is [true] and [error] is absent; resumed with a failure it
    logs the failure, writes [error] and resets [isLoading] right after,
    in one run without a further [await]; and when it returns [isLoading]
    is [false].  So at no point where the handler has handed control back
    do [isLoading = true] and the error of this request hold together. *)
Theorem error_written_just_before_loading_ends
        (s : AppState) (person cloth : ImageInfo) :
  personImage s = Some person ->
  clothImage s = Some cloth ->
  exists next,
    run (handleGenerate s) = (opening person cloth, AwaitingGenerate next)
    /\ (forall meanwhile st,
          forallb bystander meanwhile = true ->
          In st (states meanwhile (after (opening person cloth) s)) ->
          isLoading st = true /\ error st = None)
    /\ (forall e,
          run (next (Rejected e))
          = ([Logged e;
              Wrote (setError (Some ("Failed to generate image. " ++ errorMessage e)));
              Wrote (setIsLoading false)], Fulfilled))
    /\ (forall meanwhile o,
          forallb bystander meanwhile = true ->
          isLoading (after (generation s meanwhile o) s) = false).
Proof.
  intros Hp Hc.
  destruct (handleGenerate_awaits s person cloth Hp Hc) as (next & Hrun & Hnext).
  exists next. split; [exact Hrun|]. split; [|split].
  - intros meanwhile st Hm Hin.
    exact (bystanders_wait meanwhile Hm _ st Hin).
  - intros e. rewrite Hnext. reflexivity.
  - intros meanwhile o Hm.
    rewrite (generation_unfolded s person cloth meanwhile o Hp Hc).
    rewrite !after_app. destruct o; reflexivity.
Qed.

Lemma error_written_just_before_loading_ends_witness :
  exists next,
    run (handleGenerate ready) = (opening portrait shirt, AwaitingGenerate next)
    /\ run (next (Rejected (NotAnError "503")))
       = ([Logged (NotAnError "503");
           Wrote (setError
                    (Some "Failed to generate image. An unknown error occurred."));
           Wrote (setIsLoading false)], Fulfilled).
Proof.
  destruct (error_written_just_before_loading_ends ready portrait shirt
              eq_refl eq_refl) as (next & Hrun & _ & Hfail & _).
  exists next. split; [exact Hrun|]. exact (Hfail (NotAnError "503")).
Defined.

(** ** The loading message *)

Section Rotation.

Variable LOADING_MESSAGES : list string.

Lemma ticks_succ (n i : nat) (s : AppState) :
  ticks LOADING_MESSAGES (S n) i s
  = ((i + S n) mod length LOADING_MESSAGES,
     set (setLoadingMessage (Js.index LOADING_MESSAGES ((i + S n) mod length LOADING_MESSAGES))) s).
Proof.
  revert i s. induction n as [|n IH]; intros i s.
  - reflexivity.
  - change (ticks LOADING_MESSAGES (S (S n)) i s)
      with (ticks LOADING_MESSAGES (S n) ((i + 1) mod length LOADING_MESSAGES)
              (set (setLoadingMessage
                      (Js.index LOADING_MESSAGES ((i + 1) mod length LOADING_MESSAGES))) s)).
    rewrite IH. rewrite Nat.Div0.add_mod_idemp_l.
    replace (i + 1 + S n) with (i + S (S n)) by lia. reflexivity.
Qed.

Lemma ticks_spec (n i : nat) (s : AppState) :
  ticks LOADING_MESSAGES n i s
  = (index_after LOADING_MESSAGES n i,
     mkAppState (personImage s) (clothImage s) (resultImage s) (isLoading s)
                (error s) (message_after LOADING_MESSAGES n i (loadingMessage s))).
Proof.
  destruct n as [|n].
  - destruct s; reflexivity.
  - rewrite ticks_succ. reflexivity.
Qed.

Lemma elapse_live (dt : nat) (w : World) (t : Interval) :
  interval w = Some t ->
  let fires := (sinceFire t + dt) / period in
  elapse LOADING_MESSAGES dt w
  = mkWorld
      (mkAppState (personImage (app w)) (clothImage (app w))
                  (resultImage (app w)) (isLoading (app w)) (error (app w))
                  (message_after LOADING_MESSAGES fires (messageIndex t)
                                 (loadingMessage (app w))))
      (Some (mkInterval (index_after LOADING_MESSAGES fires (messageIndex t))
                        ((sinceFire t + dt) mod period)))
      (parked w).
Proof.
  intros Ht fires. unfold elapse. rewrite Ht, ticks_spec. reflexivity.
Qed.

Lemma elapse_idle (dt : nat) (w : World) :
  interval w = None -> elapse LOADING_MESSAGES dt w = w.
Proof. intros H. unfold elapse. rewrite H. reflexivity. Qed.

(** *** The interval follows the loading flag *)








(** *** The start of a loading cycle *)

Lemma enabled_button (s : AppState) :
  buttonDisabled s = false ->
  exists person cloth,
    personImage s = Some person /\ clothImage s = Some cloth
    /\ isLoading s = false.
Proof.
  unfold buttonDisabled.
  destruct (personImage s) as [person|]; [|discriminate].
  destruct (clothImage s) as [cloth|]; [|discriminate].
  intros H. exists person, cloth. repeat split. exact H.
Qed.


(** *** Time passing *)

Lemma period_positive : period <> 0.
Proof. discriminate. Qed.





End Rotation.

Lemma failed_read_leaves_slot_witness :
  let w := mkWorld ready None [] in
  let reading := step [] (SelectPerson (Some (mkFile "image/png" "new.png"))) w in
  app (step [] (ReadSettles 0 (ReadError (ProgressEvent "error"))) reading)
  = ready.
Proof.
  exact (proj1 (proj2
           (proj2 (proj2 (failed_read_leaves_slot (mkFile "image/png" "new.png")
                            (ProgressEvent "error")))
              [] (mkWorld ready None [])
              (SelectPerson (Some (mkFile "image/png" "new.png")))
              (or_introl eq_refl)))).
Defined.

(** C5.  The claim fails on the second loading cycle.  With at least two
    messages, after a first generation that lasted one period and a second
    click: [isLoading] has just become [true], the new interval has not
    fired yet (its index is back at 0), and the message shown is still the
    second element, left by the first cycle, not the first element. *)
Theorem second_request_shows_stale_message
        (m0 m1 : string) (others : list string) :
  let messages := m0 :: m1 :: others in
  let before := play messages (removelast two_requests) (mounted messages) in
  let w := play messages two_requests (mounted messages) in
  isLoading (app before) = false
  /\ isLoading (app w) = true
  /\ interval w = Some (mkInterval 0 0)
  /\ Js.index messages 0 = Some m0
  /\ loadingMessage (app w) = Some m1.
Proof.
  intros messages before w.
  repeat split.
  change (Js.index messages (1 mod length messages) = Some m1).
  rewrite Nat.mod_small by (simpl; lia). reflexivity.
Qed.

(** * Further properties *)

(** ** The encoder on arbitrary reader results *)

Lemma split_is_cons (sep : ascii) (s : string) :
  exists piece pieces, Js.split sep s = piece :: pieces.
Proof.
  destruct s as [|ch rest]; simpl.
  - eexists _, _. reflexivity.
  - destruct (Ascii.eqb ch sep); [eexists _, _; reflexivity|].
    destruct (Js.split sep rest); eexists _, _; reflexivity.
Qed.

Lemma split_second_piece (sep : ascii) (s : string) :
  Js.index (Js.split sep s) 1 = None <-> Js.lacks sep s = true.
Proof.
  induction s as [|ch rest IH]; simpl.
  - split; reflexivity.
  - destruct (Ascii.eqb ch sep); simpl.
    + destruct (split_is_cons sep rest) as (piece & pieces & ->).
      split; discriminate.
    + destruct (split_is_cons sep rest) as (piece & pieces & E).
      rewrite E in *. exact IH.
Qed.

(** The first piece of a split has no separator, and the string is that
    piece alone or that piece, a separator, and more. *)
Lemma split_first (sep : ascii) (s : string) :
  forall piece pieces,
    Js.split sep s = piece :: pieces ->
    Js.lacks sep piece = true
    /\ ((s = piece /\ pieces = [])
        \/ exists more, s = piece ++ String sep more
                        /\ pieces = Js.split sep more).
Proof.
  induction s as [|ch rest IH]; simpl; intros piece pieces H.
  - injection H as <- <-. split; [reflexivity|left; split; reflexivity].
  - destruct (Ascii.eqb_spec ch sep) as [->|Hne].
    + injection H as <- <-. split; [reflexivity|].
      right. exists rest. split; reflexivity.
    + destruct (split_is_cons sep rest) as (p & ps & E). rewrite E in H.
      injection H as <- <-.
      destruct (IH p ps E) as (Hp & Hshape). split.
      * simpl. rewrite Hp. apply Ascii.eqb_neq in Hne. rewrite Hne. reflexivity.
      * destruct Hshape as [[-> ->] | (more & -> & ->)].
        -- left. split; reflexivity.
        -- right. exists more. split; reflexivity.
Qed.

(** X1.  Whatever string the reader delivers, [fileToImageInfo] resolves:
    with the file's type and name, and with a [base64] that is [undefined]
    exactly when the string has no comma at all (as for a bare ["data:"]). *)
Theorem base64_undefined_without_comma (file : File) (result : string) :
  exists info,
    fileToImageInfo file (Loaded result) = inr info
    /\ mimeType info = file_type file
    /\ name info = file_name file
    /\ (base64 info = None <-> Js.lacks comma result = true).
Proof.
  eexists. split; [reflexivity|]. split; [reflexivity|]. split; [reflexivity|].
  apply split_second_piece.
Qed.

(** X2.  When [fileToImageInfo] stores a [base64], it is the text between
    the first and the second comma of the reader's result: the result is a
    comma-free header, a comma, the stored text (itself comma-free), and
    then either nothing or a comma and more, which is dropped. *)
Theorem base64_is_between_commas (file : File) (result payload : string)
        (info : ImageInfo) :
  fileToImageInfo file (Loaded result) = inr info ->
  base64 info = Some payload ->
  exists header dropped,
    result = header ++ "," ++ payload ++ dropped
    /\ Js.lacks comma header = true
    /\ Js.lacks comma payload = true
    /\ (dropped = "" \/ exists more, dropped = "," ++ more).
Proof.
  unfold fileToImageInfo. intros Hinfo Hpayload.
  injection Hinfo as <-. simpl in Hpayload.
  destruct (split_is_cons comma result) as (header & pieces & E).
  rewrite E in Hpayload.
  destruct (split_first comma result header pieces E) as (Hheader & Hshape).
  destruct Hshape as [[_ ->] | (more & -> & ->)]; [discriminate Hpayload|].
  destruct (split_is_cons comma more) as (p & ps & E').
  rewrite E' in Hpayload. injection Hpayload as ->.
  destruct (split_first comma more payload ps E') as (Hp & Hshape).
  exists header.
  destruct Hshape as [[-> _] | (tail & -> & _)].
  - exists "". repeat split; try assumption.
    + change ("," ++ payload ++ "") with (String comma (payload ++ "")).
      f_equal. f_equal. clear. induction payload as [|c p IH]; simpl;
        [reflexivity|rewrite <- IH; reflexivity].
    + left. reflexivity.
  - exists (String comma tail). repeat split; try assumption.
    right. exists tail. reflexivity.
Qed.

Lemma base64_is_between_commas_witness :
  exists header dropped,
    "data:image/png;base64,AAAA,BBBB" = header ++ "," ++ "AAAA" ++ dropped
    /\ Js.lacks comma header = true
    /\ Js.lacks comma "AAAA" = true
    /\ (dropped = "" \/ exists more, dropped = "," ++ more).
Proof.
  apply (base64_is_between_commas (mkFile "image/png" "portrait.png")
           "data:image/png;base64,AAAA,BBBB" "AAAA"
           (mkImageInfo (Some "AAAA") "image/png" "portrait.png"));
    reflexivity.
Defined.

(** X3.  A result with a second comma loses everything from that comma
    on: only the text between the first two commas is stored. *)
Theorem base64_cut_at_second_comma (file : File) (header payload more : string) :
  Js.lacks comma header = true ->
  Js.lacks comma payload = true ->
  fileToImageInfo file (Loaded (header ++ "," ++ payload ++ "," ++ more))
  = inr (mkImageInfo (Some payload) (file_type file) (file_name file)).
Proof.
  intros Hheader Hpayload. unfold fileToImageInfo.
  change ("," ++ payload ++ "," ++ more)
    with (String comma (payload ++ String comma more)).
  rewrite (split_first_piece comma header _ Hheader).
  rewrite (split_first_piece comma payload more Hpayload).
  reflexivity.
Qed.

Lemma base64_cut_at_second_comma_witness :
  fileToImageInfo (mkFile "image/png" "portrait.png")
                  (Loaded ("data:image/png;base64" ++ "," ++ "AAAA" ++ "," ++ "BBBB"))
  = inr (mkImageInfo (Some "AAAA") "image/png" "portrait.png").
Proof.
  apply (base64_cut_at_second_comma (mkFile "image/png" "portrait.png")
           "data:image/png;base64" "AAAA" "BBBB"); reflexivity.
Defined.

(** ** Invariants of the running component *)

Lemma slot_effects_keep (effs : list Effect) :
  forallb slot_effect effs = true ->
  forall s,
    resultImage (after effs s) = resultImage s
    /\ isLoading (after effs s) = isLoading s
    /\ error (after effs s) = error s
    /\ loadingMessage (after effs s) = loadingMessage s.
Proof.
  induction effs as [|e rest IH]; simpl; intros H s.
  - repeat split.
  - apply andb_true_iff in H as [He Hrest].
    destruct (IH Hrest (effect e s)) as (Hr & Hl & Herr & Hm).
    unfold after in *. simpl. rewrite Hr, Hl, Herr, Hm.
    destruct e as [[]| | |]; try discriminate He; repeat split.
Qed.

Lemma performAll_slot_effects (effs : list Effect) :
  forallb slot_effect effs = true ->
  forall w,
    app (performAll effs w) = after effs (app w)
    /\ interval (performAll effs w) = interval w
    /\ parked (performAll effs w) = parked w.
Proof.
  induction effs as [|e rest IH]; simpl; intros H w.
  - repeat split.
  - apply andb_true_iff in H as [He Hrest].
    assert (Hsame : isLoading (effect e (app w)) = isLoading (app w))
      by (destruct e as [[]| | |]; try discriminate He; reflexivity).
    unfold performAll in *. simpl.
    rewrite (perform_same_loading e w Hsame).
    destruct (IH Hrest (mkWorld (effect e (app w)) (interval w) (parked w)))
      as (Ha & Hi & Hp).
    rewrite Ha, Hi, Hp. repeat split.
Qed.

Lemma performAll_closing (o : GenOutcome) (w : World) :
  isLoading (app w) = true ->
  performAll (closing o) w
  = mkWorld (after (closing o) (app w)) None (parked w).
Proof.
  intros Hl. destruct o as [image | e]; unfold closing, performAll;
    cbn [fold_left].
  - rewrite (perform_same_loading (Wrote (setResultImage (Some image))) w)
      by reflexivity.
    rewrite perform_other_loading by (simpl; rewrite Hl; reflexivity).
    simpl. rewrite Hl. reflexivity.
  - rewrite (perform_same_loading (Logged e) w) by reflexivity.
    rewrite (perform_same_loading
               (Wrote (setError (Some (failurePrefix ++ errorMessage e)))))
      by reflexivity.
    rewrite perform_other_loading by (simpl; rewrite Hl; reflexivity).
    simpl. rewrite Hl. reflexivity.
Qed.

Lemma start_settling (p : proc) (w : World) :
  settled (snd (run p)) = true ->
  start p w = performAll (fst (run p)) w.
Proof.
  unfold start. destruct (run p) as [effs st]. simpl.
  destruct st; try discriminate; reflexivity.
Qed.

Lemma filter_remove_nth {A : Type} (f : A -> bool) (xs : list A) :
  forall n x,
    nth_error xs n = Some x ->
    length (filter f xs)
    = (if f x then 1 else 0) + length (filter f (remove_nth n xs)).
Proof.
  induction xs as [|y ys IH]; intros n x H.
  - destruct n; discriminate H.
  - destruct n as [|n]; simpl in H.
    + injection H as ->. simpl. destruct (f x); reflexivity.
    + pose proof (IH n x H) as IHn. simpl.
      destruct (f y), (f x); simpl in *; lia.
Qed.

Lemma Forall_remove_nth {A : Type} (P : A -> Prop) (xs : list A) :
  Forall P xs -> forall n, Forall P (remove_nth n xs).
Proof.
  induction 1 as [|y ys Hy Hys IH]; intros n.
  - destruct n; constructor.
  - destruct n as [|n]; simpl; [exact Hys|constructor; [exact Hy|apply IH]].
Qed.

Lemma nth_error_Forall {A : Type} (P : A -> Prop) (xs : list A) :
  Forall P xs -> forall n x, nth_error xs n = Some x -> P x.
Proof.
  intros H n x Hn. rewrite Forall_forall in H.
  apply H. exact (nth_error_In xs n Hn).
Qed.

Lemma filter_finds {A : Type} (f : A -> bool) (xs : list A) :
  filter f xs <> [] -> exists n x, nth_error xs n = Some x /\ f x = true.
Proof.
  induction xs as [|y ys IH]; simpl; intros H.
  - contradiction.
  - destruct (f y) eqn:E.
    + exists 0, y. split; [reflexivity|exact E].
    + destruct (IH H) as (n & x & Hn & Hx). exists (S n), x. split; assumption.
Qed.

Lemma upload_continues (file : File) (fill : ImageInfo -> Setter) :
  (forall info, slot_effect (Wrote (fill info)) = true) ->
  exists next,
    run (awaitFileToImageInfo file (fun info => Call (fill info) Return))
    = ([Reading file], AwaitingRead next)
    /\ (forall result,
          run (next (Loaded result))
          = (match fileToImageInfo file (Loaded result) with
             | inr info => [Wrote (fill info)]
             | inl _ => []
             end, Fulfilled))
    /\ (forall e, run (next (ReadError e)) = ([], RejectedWith (ReadRejected e)))
    /\ well_parked (AwaitingRead next).
Proof.
  intros Hfill. eexists. split; [reflexivity|]. split; [|split].
  - intros result. reflexivity.
  - intros e. reflexivity.
  - intros [result | e]; [|split; reflexivity].
    split; [|reflexivity].
    cbn [run fst fileToImageInfo forallb]. rewrite Hfill. reflexivity.
Qed.

Lemma click_parks (messages : list string) (w : World) :
  buttonDisabled (app w) = false ->
  exists person cloth next,
    step messages ClickGenerate w
    = mkWorld (after (opening person cloth) (app w))
              (Some (mkInterval 0 0))
              (parked w ++ [AwaitingGenerate next])%list
    /\ personImage (app w) = Some person
    /\ clothImage (app w) = Some cloth
    /\ isLoading (app w) = false
    /\ well_parked (AwaitingGenerate next).
Proof.
  intros Hbutton.
  destruct (enabled_button (app w) Hbutton) as (person & cloth & Hp & Hc & Hl).
  destruct (handleGenerate_awaits (app w) person cloth Hp Hc)
    as (next & Hrun & Hnext).
  exists person, cloth, next.
  split; [|split; [exact Hp|split; [exact Hc|split; [exact Hl|exact Hnext]]]].
  simpl. rewrite Hbutton.
  unfold start. rewrite Hrun. unfold opening, performAll. cbn [fold_left].
  rewrite (perform_other_loading (Wrote (setIsLoading true)) w)
    by (rewrite Hl; reflexivity).
  rewrite !perform_same_loading by reflexivity.
  rewrite Hl. reflexivity.
Qed.

Lemma nonempty_length {A : Type} (xs : list A) : xs <> [] -> 0 < length xs.
Proof.
  destruct xs as [|x rest]; intros H.
  - exfalso. apply H. reflexivity.
  - apply Nat.lt_0_succ.
Qed.

Lemma period_is_positive : 0 < period.
Proof. exact (Nat.lt_0_succ 2499). Qed.

Lemma sound_frame (messages : list string) (w w' : World) :
  sound messages w ->
  interval w' = interval w ->
  resultImage (app w') = resultImage (app w) ->
  isLoading (app w') = isLoading (app w) ->
  error (app w') = error (app w) ->
  loadingMessage (app w') = loadingMessage (app w) ->
  Forall well_parked (parked w') ->
  outstanding w' = outstanding w ->
  sound messages w'.
Proof.
  intros [Ht Hp Ho Hl Hx He Hm Hi] Ei Er El Ee Em Hp' Eo.
  constructor; unfold timed in *; rewrite ?Ei, ?Er, ?El, ?Ee, ?Em, ?Eo;
    assumption.
Qed.

Lemma start_slots (p : proc) (w : World) :
  forallb slot_effect (fst (run p)) = true ->
  settled (snd (run p)) = true ->
  app (start p w) = after (fst (run p)) (app w)
  /\ interval (start p w) = interval w
  /\ parked (start p w) = parked w.
Proof.
  intros Hslots Hsettled. rewrite (start_settling p w Hsettled).
  apply performAll_slot_effects, Hslots.
Qed.

Lemma start_slots_sound (messages : list string) (p : proc) (w : World) :
  forallb slot_effect (fst (run p)) = true ->
  settled (snd (run p)) = true ->
  sound messages w -> sound messages (start p w).
Proof.
  intros Hslots Hsettled Hw.
  destruct (start_slots p w Hslots Hsettled) as (Ha & Hi & Hp).
  destruct (slot_effects_keep (fst (run p)) Hslots (app w))
    as (Hr & Hl & He & Hm).
  apply (sound_frame messages w); rewrite ?Ha; try assumption.
  - rewrite Hp. apply (sound_parked _ _ Hw).
  - unfold outstanding. rewrite Hp. reflexivity.
Qed.

Lemma select_parks (file : File) (fill : ImageInfo -> Setter) (w : World) :
  (forall info, slot_effect (Wrote (fill info)) = true) ->
  exists next,
    start (awaitFileToImageInfo file (fun info => Call (fill info) Return)) w
    = mkWorld (app w) (interval w) (parked w ++ [AwaitingRead next])%list
    /\ (forall result,
          run (next (Loaded result))
          = (match fileToImageInfo file (Loaded result) with
             | inr info => [Wrote (fill info)]
             | inl _ => []
             end, Fulfilled))
    /\ (forall e, run (next (ReadError e)) = ([], RejectedWith (ReadRejected e)))
    /\ well_parked (AwaitingRead next).
Proof.
  intros Hfill.
  destruct (upload_continues file fill Hfill) as (next & Hrun & Hok & Hfail & Hwp).
  exists next. split; [|split; [exact Hok|split; [exact Hfail|exact Hwp]]].
  unfold start. rewrite Hrun. unfold performAll. cbn [fold_left park].
  rewrite (perform_same_loading (Reading file) w) by reflexivity.
  reflexivity.
Qed.

Lemma outstanding_parks_read (w : World) (a : AppState) (i : option Interval)
      (next : ReadOutcome -> proc) :
  outstanding (mkWorld a i (parked w ++ [AwaitingRead next])%list)
  = outstanding w.
Proof.
  unfold outstanding. simpl. rewrite filter_app, length_app. simpl. lia.
Qed.

Lemma select_sound (messages : list string) (file : option File)
      (fill : option ImageInfo -> Setter) (w : World) :
  (forall v, slot_effect (Wrote (fill v)) = true) ->
  sound messages w ->
  sound messages
        (start match file with
               | Some f =>
                   awaitFileToImageInfo f (fun info =>
                     Call (fill (Some info)) Return)
               | None => Call (fill None) Return
               end w).
Proof.
  intros Hfill Hw. destruct file as [f|].
  - destruct (select_parks f (fun info => fill (Some info)) w
                           (fun info => Hfill (Some info)))
      as (next & -> & _ & _ & Hwp).
    apply (sound_frame messages w); try reflexivity; try assumption.
    + simpl. apply Forall_app. split; [apply (sound_parked _ _ Hw)|].
      constructor; [exact Hwp|constructor].
    + apply outstanding_parks_read.
  - apply start_slots_sound; try assumption.
    + cbn [run fst forallb]. rewrite Hfill. reflexivity.
    + reflexivity.
Qed.

Lemma unpark_read_sound (messages : list string) (n : nat) (w : World)
      (next : ReadOutcome -> proc) :
  nth_error (parked w) n = Some (AwaitingRead next) ->
  sound messages w -> sound messages (unpark n w).
Proof.
  intros Hn Hw.
  apply (sound_frame messages w); try reflexivity; try assumption.
  - simpl. apply Forall_remove_nth, (sound_parked _ _ Hw).
  - unfold outstanding. simpl.
    rewrite (filter_remove_nth awaits_generation (parked w) n _ Hn).
    reflexivity.
Qed.

Lemma outstanding_call_loading (messages : list string) (n : nat) (w : World)
      (next : GenOutcome -> proc) :
  sound messages w ->
  nth_error (parked w) n = Some (AwaitingGenerate next) ->
  isLoading (app w) = true
  /\ outstanding (unpark n w) = 0
  /\ forall o, run (next o) = (closing o, Fulfilled).
Proof.
  intros Hw Hn.
  pose proof (sound_outstanding _ _ Hw) as Ho.
  unfold outstanding in *. simpl.
  rewrite (filter_remove_nth awaits_generation (parked w) n _ Hn) in Ho.
  simpl in Ho.
  destruct (isLoading (app w)); [|discriminate Ho].
  split; [reflexivity|]. split; [lia|].
  exact (nth_error_Forall well_parked (parked w) (sound_parked _ _ Hw) n _ Hn).
Qed.

Lemma settle_ends_loading (messages : list string) (n : nat) (o : GenOutcome)
      (w : World) (next : GenOutcome -> proc) :
  sound messages w ->
  nth_error (parked w) n = Some (AwaitingGenerate next) ->
  step messages (GenerationSettles n o) w
  = mkWorld (after (closing o) (app w)) None (remove_nth n (parked w)).
Proof.
  intros Hw Hn.
  destruct (outstanding_call_loading messages n w next Hw Hn) as (Hl & _ & Hnext).
  simpl. rewrite Hn. unfold start. rewrite Hnext.
  rewrite (performAll_closing o (unpark n w) Hl). reflexivity.
Qed.

Lemma settle_sound (messages : list string) (n : nat) (o : GenOutcome)
      (w : World) (next : GenOutcome -> proc) :
  sound messages w ->
  nth_error (parked w) n = Some (AwaitingGenerate next) ->
  sound messages (step messages (GenerationSettles n o) w).
Proof.
  intros Hw Hn.
  rewrite (settle_ends_loading messages n o w next Hw Hn).
  destruct (outstanding_call_loading messages n w next Hw Hn) as (Hl & Hz & _).
  destruct (sound_loading _ _ Hw Hl) as (Hr & He).
  assert (Hdone : isLoading (after (closing o) (app w)) = false)
    by (destruct o; reflexivity).
  constructor; cbn [app interval parked].
  - unfold timed. simpl. exact Hdone.
  - apply Forall_remove_nth, (sound_parked _ _ Hw).
  - rewrite Hdone. exact Hz.
  - rewrite Hdone. discriminate.
  - destruct o; [right; exact He|left; exact Hr].
  - intros shown. destruct o as [image | e]; simpl.
    + rewrite He. discriminate.
    + intros H. injection H as <-. exists e. reflexivity.
  - destruct o; exact (sound_message _ _ Hw).
  - discriminate.
Qed.

Lemma click_sound (messages : list string) (w : World) :
  sound messages w -> sound messages (step messages ClickGenerate w).
Proof.
  intros Hw. destruct (buttonDisabled (app w)) eqn:Hbutton.
  - simpl. rewrite Hbutton. exact Hw.
  - destruct (click_parks messages w Hbutton)
      as (person & cloth & next & -> & _ & _ & Hl & Hwp).
    constructor; cbn [app interval parked].
    + reflexivity.
    + apply Forall_app. split; [apply (sound_parked _ _ Hw)|].
      constructor; [exact Hwp|constructor].
    + pose proof (sound_outstanding _ _ Hw) as Ho. rewrite Hl in Ho.
      unfold outstanding in *. simpl.
      rewrite filter_app, length_app, Ho. reflexivity.
    + split; reflexivity.
    + left. reflexivity.
    + discriminate.
    + exact (sound_message _ _ Hw).
    + intros t Ht. injection Ht as <-. cbn [sinceFire messageIndex]. split.
      * exact period_is_positive.
      * apply nonempty_length.
Qed.

Lemma elapse_sound (messages : list string) (dt : nat) (w : World) :
  sound messages w -> sound messages (elapse messages dt w).
Proof.
  intros Hw. destruct (interval w) as [t|] eqn:Ht.
  - rewrite (elapse_live messages dt w t Ht).
    destruct (sound_interval _ _ Hw t Ht) as (Hsince & Hindex).
    assert (Hbound : messages <> [] ->
                     forall k, k mod length messages < length messages).
    { intros Hne k. apply Nat.mod_upper_bound.
      pose proof (nonempty_length messages Hne) as Hpos.
      intros Hzero. rewrite Hzero in Hpos. exact (Nat.lt_irrefl 0 Hpos). }
    pose proof (Nat.mod_upper_bound (sinceFire t + dt) period period_positive)
      as Hrest.
    generalize dependent ((sinceFire t + dt) mod period).
    generalize ((sinceFire t + dt) / period).
    intros fires rest Hrest.
    destruct Hw as [Htimed Hp Ho Hl Hx He Hm Hi].
    constructor; cbn [app interval parked isLoading resultImage error
                      loadingMessage]; try assumption.
    + unfold timed in *. rewrite Ht in Htimed. exact Htimed.
    + destruct fires as [|fires]; [exact Hm|].
      eexists. split; [reflexivity|]. intros Hne. apply Hbound, Hne.
    + intros t' Ht'. injection Ht' as <-. split; [exact Hrest|].
      intros Hne.
      destruct fires as [|fires]; [exact (Hindex Hne)|apply Hbound, Hne].
  - rewrite (elapse_idle messages dt w Ht). exact Hw.
Qed.

Lemma step_sound (messages : list string) (i : Input) (w : World) :
  sound messages w -> sound messages (step messages i w).
Proof.
  intros Hw. destruct i as [file|file| |n r|n o|dt].
  - apply (select_sound messages file setPersonImage w); [reflexivity|exact Hw].
  - apply (select_sound messages file setClothImage w); [reflexivity|exact Hw].
  - apply click_sound, Hw.
  - simpl. destruct (nth_error (parked w) n) as [[| | |next]|] eqn:Hn;
      try exact Hw.
    destruct (nth_error_Forall well_parked (parked w) (sound_parked _ _ Hw)
                               n _ Hn r) as (Hslots & Hsettled).
    apply start_slots_sound; try assumption.
    apply (unpark_read_sound messages n w next Hn Hw).
  - destruct (nth_error (parked w) n) as [[| |next|]|] eqn:Hn;
      try (simpl; rewrite Hn; exact Hw).
    apply (settle_sound messages n o w next Hw Hn).
  - apply elapse_sound, Hw.
Qed.

Lemma mounted_sound (messages : list string) : sound messages (mounted messages).
Proof.
  constructor; simpl; try reflexivity; try discriminate.
  - constructor.
  - left. reflexivity.
  - exists 0. split; [reflexivity|].
    apply nonempty_length.
Qed.

Lemma play_sound (messages : list string) (inputs : list Input) (w : World) :
  sound messages w -> sound messages (play messages inputs w).
Proof.
  revert w. induction inputs as [|i rest IH]; intros w Hw.
  - exact Hw.
  - apply IH, step_sound, Hw.
Qed.

(** ** Uploads in the running component *)

Lemma upload_round (messages : list string) (file : File)
      (fill : ImageInfo -> Setter) (r : ReadOutcome) (w : World) :
  (forall info, slot_effect (Wrote (fill info)) = true) ->
  let reading :=
    start (awaitFileToImageInfo file (fun info => Call (fill info) Return)) w in
  let done := step messages (ReadSettles (length (parked w)) r) reading in
  app done = match fileToImageInfo file r with
             | inr info => set (fill info) (app w)
             | inl _ => app w
             end
  /\ interval done = interval w
  /\ parked done = parked w.
Proof.
  intros Hfill reading done. subst done reading.
  destruct (select_parks file fill w Hfill) as (next & -> & Hok & Hfail & Hwp).
  cbn [step parked]. rewrite nth_error_last.
  assert (Hunpark : unpark (length (parked w))
                           (mkWorld (app w) (interval w)
                                    (parked w ++ [AwaitingRead next])%list)
                    = mkWorld (app w) (interval w) (parked w)).
  { unfold unpark. cbn [app interval parked]. rewrite remove_nth_last.
    reflexivity. }
  rewrite Hunpark.
  destruct (Hwp r) as (Hslots & Hsettled).
  destruct (start_slots (next r) (mkWorld (app w) (interval w) (parked w))
                        Hslots Hsettled) as (Ha & Hi & Hp).
  rewrite Ha, Hi, Hp. cbn [app interval parked].
  split; [|split; reflexivity].
  destruct r as [result | e].
  - rewrite Hok. reflexivity.
  - rewrite Hfail. reflexivity.
Qed.

(** X4.  A file that is selected and read successfully changes one thing:
    the slot of its uploader becomes the encoded image.  The other slot,
    [resultImage], [isLoading], [error] and [loadingMessage], the interval
    and the other parked procedures are as before, whatever the state of
    the component (idle, loading, showing a result or an error). *)
Theorem successful_read_fills_one_slot
        (messages : list string) (file : File) (result : string) (w : World) :
  let info := mkImageInfo (Js.index (Js.split comma result) 1)
                          (file_type file) (file_name file) in
  let settle := ReadSettles (length (parked w)) (Loaded result) in
  let person := step messages settle (step messages (SelectPerson (Some file)) w) in
  let cloth := step messages settle (step messages (SelectCloth (Some file)) w) in
  (app person = set (setPersonImage (Some info)) (app w)
   /\ interval person = interval w /\ parked person = parked w)
  /\ (app cloth = set (setClothImage (Some info)) (app w)
      /\ interval cloth = interval w /\ parked cloth = parked w).
Proof.
  intros info settle person cloth. split.
  - exact (upload_round messages file (fun i => setPersonImage (Some i))
                        (Loaded result) w (fun _ => eq_refl)).
  - exact (upload_round messages file (fun i => setClothImage (Some i))
                        (Loaded result) w (fun _ => eq_refl)).
Qed.

Lemma disabled_click (messages : list string) (w : World) :
  buttonDisabled (app w) = true -> step messages ClickGenerate w = w.
Proof. intros H. simpl. rewrite H. reflexivity. Qed.

(** X5.  An uploader that reports no file ([null]) clears its slot at
    once, without reading anything, and leaves the rest of the state
    alone; the button is then disabled, so that a click does nothing (in
    particular it does not reach the validation message). *)
Theorem cleared_slot_disables_button (messages : list string) (w : World) :
  let person := step messages (SelectPerson None) w in
  let cloth := step messages (SelectCloth None) w in
  (app person = set (setPersonImage None) (app w)
   /\ interval person = interval w /\ parked person = parked w
   /\ buttonDisabled (app person) = true
   /\ step messages ClickGenerate person = person)
  /\ (app cloth = set (setClothImage None) (app w)
      /\ interval cloth = interval w /\ parked cloth = parked w
      /\ buttonDisabled (app cloth) = true
      /\ step messages ClickGenerate cloth = cloth).
Proof.
  intros person cloth.
  assert (Hp : app person = set (setPersonImage None) (app w)
               /\ interval person = interval w /\ parked person = parked w).
  { exact (start_slots (Call (setPersonImage None) Return) w eq_refl eq_refl). }
  assert (Hc : app cloth = set (setClothImage None) (app w)
               /\ interval cloth = interval w /\ parked cloth = parked w).
  { exact (start_slots (Call (setClothImage None) Return) w eq_refl eq_refl). }
  assert (Hpb : buttonDisabled (app person) = true).
  { rewrite (proj1 Hp). reflexivity. }
  assert (Hcb : buttonDisabled (app cloth) = true).
  { rewrite (proj1 Hc). unfold buttonDisabled. simpl.
    destruct (personImage (app w)); reflexivity. }
  split.
  - destruct Hp as (Ha & Hi & Hq). repeat split; try assumption.
    apply disabled_click, Hpb.
  - destruct Hc as (Ha & Hi & Hq). repeat split; try assumption.
    apply disabled_click, Hcb.
Qed.

Lemma read_settles_at (messages : list string) (w : World) (n : nat)
      (next : ReadOutcome -> proc) (r : ReadOutcome) :
  nth_error (parked w) n = Some (AwaitingRead next) ->
  well_parked (AwaitingRead next) ->
  let w' := step messages (ReadSettles n r) w in
  app w' = after (fst (run (next r))) (app w)
  /\ interval w' = interval w
  /\ parked w' = remove_nth n (parked w).
Proof.
  intros Hn Hwp w'. subst w'. cbn [step]. rewrite Hn.
  destruct (Hwp r) as (Hslots & Hsettled).
  exact (start_slots (next r) (unpark n w) Hslots Hsettled).
Qed.

Lemma parked_pair {A : Type} (xs : list A) (a b : A) :
  let both := ((xs ++ [a]) ++ [b])%list in
  nth_error both (S (length xs)) = Some b
  /\ remove_nth (S (length xs)) both = (xs ++ [a])%list
  /\ nth_error both (length xs) = Some a
  /\ remove_nth (length xs) both = (xs ++ [b])%list.
Proof.
  induction xs as [|x rest IH]; simpl.
  - repeat split.
  - destruct IH as (H1 & H2 & H3 & H4).
    simpl in H1, H2. rewrite H1, H2, H3, H4. repeat split.
Qed.

Lemma two_reads_parked (messages : list string) (fa fb : File)
      (fill : ImageInfo -> Setter) (w : World) :
  (forall info, slot_effect (Wrote (fill info)) = true) ->
  (forall a b s, set (fill a) (set (fill b) s) = set (fill a) s) ->
  let handler f := awaitFileToImageInfo f (fun info => Call (fill info) Return) in
  let both := start (handler fb) (start (handler fa) w) in
  let n := length (parked w) in
  forall ra rb,
    app (step messages (ReadSettles n (Loaded ra))
           (step messages (ReadSettles (S n) (Loaded rb)) both))
    = match fileToImageInfo fa (Loaded ra) with
      | inr info => set (fill info) (app w)
      | inl _ => app w
      end
    /\ app (step messages (ReadSettles n (Loaded rb))
              (step messages (ReadSettles n (Loaded ra)) both))
       = match fileToImageInfo fb (Loaded rb) with
         | inr info => set (fill info) (app w)
         | inl _ => app w
         end.
Proof.
  intros Hfill Hset handler both n ra rb. subst both handler n.
  destruct (select_parks fa fill w Hfill) as (na & -> & Hoka & _ & Hwa).
  set (wa := mkWorld (app w) (interval w) (parked w ++ [AwaitingRead na])%list).
  destruct (select_parks fb fill wa Hfill) as (nb & -> & Hokb & _ & Hwb).
  subst wa. cbn [app interval parked].
  set (both := mkWorld (app w) (interval w)
                       ((parked w ++ [AwaitingRead na]) ++ [AwaitingRead nb])%list).
  destruct (parked_pair (parked w) (AwaitingRead na) (AwaitingRead nb))
    as (Hb & Hrb & Ha & Hra).
  split.
  - (* the second read settles first, the first read last *)
    destruct (read_settles_at messages both (S (length (parked w))) nb
                              (Loaded rb) Hb Hwb) as (A1 & _ & P1).
    set (w1 := step messages (ReadSettles (S (length (parked w))) (Loaded rb)) both)
      in *.
    cbn [parked both] in P1. rewrite Hrb in P1.
    assert (H1 : nth_error (parked w1) (length (parked w)) = Some (AwaitingRead na))
      by (rewrite P1; apply nth_error_last).
    destruct (read_settles_at messages w1 (length (parked w)) na
                              (Loaded ra) H1 Hwa) as (A2 & _ & _).
    rewrite A2, A1, Hoka, Hokb.
    cbn [fst fileToImageInfo after fold_left effect app both]. apply Hset.
  - (* the first read settles first, the second read last *)
    destruct (read_settles_at messages both (length (parked w)) na
                              (Loaded ra) Ha Hwa) as (A1 & _ & P1).
    set (w1 := step messages (ReadSettles (length (parked w)) (Loaded ra)) both)
      in *.
    cbn [parked both] in P1. rewrite Hra in P1.
    assert (H1 : nth_error (parked w1) (length (parked w)) = Some (AwaitingRead nb))
      by (rewrite P1; apply nth_error_last).
    destruct (read_settles_at messages w1 (length (parked w)) nb
                              (Loaded rb) H1 Hwb) as (A2 & _ & _).
    rewrite A2, A1, Hoka, Hokb.
    cbn [fst fileToImageInfo after fold_left effect app both]. apply Hset.
Qed.

(** X6.  Two files selected in a row for the same slot are read
    independently, and the slot ends up with the file whose read settles
    last, not with the file selected last: if the read of the second file
    settles first, the first file overwrites it. *)
Theorem last_settled_read_wins
        (messages : list string) (first second : File)
        (result1 result2 : string) (w : World) :
  let encoded f r := mkImageInfo (Js.index (Js.split comma r) 1)
                                 (file_type f) (file_name f) in
  let n := length (parked w) in
  let person := step messages (SelectPerson (Some second))
                     (step messages (SelectPerson (Some first)) w) in
  let cloth := step messages (SelectCloth (Some second))
                    (step messages (SelectCloth (Some first)) w) in
  personImage
    (app (step messages (ReadSettles n (Loaded result1))
            (step messages (ReadSettles (S n) (Loaded result2)) person)))
  = Some (encoded first result1)
  /\ personImage
       (app (step messages (ReadSettles n (Loaded result2))
               (step messages (ReadSettles n (Loaded result1)) person)))
     = Some (encoded second result2)
  /\ clothImage
       (app (step messages (ReadSettles n (Loaded result1))
               (step messages (ReadSettles (S n) (Loaded result2)) cloth)))
     = Some (encoded first result1)
  /\ clothImage
       (app (step messages (ReadSettles n (Loaded result2))
               (step messages (ReadSettles n (Loaded result1)) cloth)))
     = Some (encoded second result2).
Proof.
  intros encoded n person cloth.
  destruct (two_reads_parked messages first second
              (fun i => setPersonImage (Some i)) w
              (fun _ => eq_refl) (fun _ _ _ => eq_refl) result1 result2)
    as (P1 & P2).
  destruct (two_reads_parked messages first second
              (fun i => setClothImage (Some i)) w
              (fun _ => eq_refl) (fun _ _ _ => eq_refl) result1 result2)
    as (C1 & C2).
  split; [exact (f_equal personImage P1)|].
  split; [exact (f_equal personImage P2)|].
  split; [exact (f_equal clothImage C1)|exact (f_equal clothImage C2)].
Qed.

(** X7.  From the freshly mounted component, two successful reads (of
    any files, with any reader results: nothing is validated, a [base64]
    may even be [undefined]) enable the button, and the click then calls
    [generateVirtualTryOnImage] once, with exactly the two images the
    encoder produced, person first. *)
Theorem uploads_enable_generation
        (messages : list string) (person cloth : File) (result1 result2 : string) :
  let encoded f r := mkImageInfo (Js.index (Js.split comma r) 1)
                                 (file_type f) (file_name f) in
  let w := play messages
                [SelectPerson (Some person); ReadSettles 0 (Loaded result1);
                 SelectCloth (Some cloth); ReadSettles 0 (Loaded result2)]
                (mounted messages) in
  buttonDisabled (initialState messages) = true
  /\ buttonDisabled (app w) = false
  /\ invocations (fst (run (handleGenerate (app w))))
     = [(encoded person result1, encoded cloth result2)]
  /\ isLoading (app (step messages ClickGenerate w)) = true
  /\ outstanding (step messages ClickGenerate w) = 1.
Proof.
  intros encoded w. repeat split.
Qed.

(** ** What holds in every reachable state *)

Lemma reachable_sound (messages : list string) (inputs : list Input) :
  sound messages (play messages inputs (mounted messages)).
Proof. apply play_sound, mounted_sound. Qed.

(** X8.  Whatever the user and the environment do, at most one call of
    [generateVirtualTryOnImage] is outstanding at any time, and
    [isLoading] is [true] exactly while one is: the button is disabled
    from the click until the call settles. *)
Theorem one_call_at_a_time (messages : list string) (inputs : list Input) :
  let w := play messages inputs (mounted messages) in
  outstanding w <= 1
  /\ (isLoading (app w) = true <-> outstanding w = 1)
  /\ (isLoading (app w) = true -> buttonDisabled (app w) = true).
Proof.
  intros w.
  pose proof (sound_outstanding _ _ (reachable_sound messages inputs)) as Ho.
  fold w in Ho. rewrite Ho.
  unfold buttonDisabled.
  destruct (isLoading (app w)); repeat split; auto; try discriminate.
  intros _. destruct (personImage (app w)), (clothImage (app w)); reflexivity.
Qed.

Lemma validation_is_no_failure (e : Thrown) :
  validationMessage <> failurePrefix ++ errorMessage e.
Proof. discriminate. Qed.

(** X9.  Every error the running component ever shows is a generation
    failure, the prefix followed by the failure's message or the fallback
    text.  The validation message of [handleGenerate] is never shown: the
    button that calls the handler is disabled whenever an image is
    missing. *)
Theorem shown_error_is_generation_failure
        (messages : list string) (inputs : list Input) (shown : string) :
  error (app (play messages inputs (mounted messages))) = Some shown ->
  (exists e, shown = "Failed to generate image. " ++ errorMessage e)
  /\ shown <> "Please upload both your photo and a clothing item photo.".
Proof.
  intros H.
  destruct (sound_error _ _ (reachable_sound messages inputs) shown H)
    as (e & ->).
  split; [exists e; reflexivity|].
  intros Heq. exact (validation_is_no_failure e (eq_sym Heq)).
Qed.

Lemma shown_error_is_generation_failure_witness :
  exists e, "Failed to generate image. quota exceeded"
            = "Failed to generate image. " ++ errorMessage e.
Proof.
  exact (proj1 (shown_error_is_generation_failure
                  [] (uploads ++ [ClickGenerate;
                                  GenerationSettles 0
                                    (Rejected (ErrorInstance "quota exceeded"))])%list
                  "Failed to generate image. quota exceeded" eq_refl)).
Defined.

(** X10.  In every reachable state a result and an error are never shown
    together, and while [isLoading] is [true] neither is present. *)
Theorem result_and_error_exclusive (messages : list string) (inputs : list Input) :
  let w := play messages inputs (mounted messages) in
  (resultImage (app w) = None \/ error (app w) = None)
  /\ (isLoading (app w) = true ->
      resultImage (app w) = None /\ error (app w) = None).
Proof.
  intros w. split.
  - exact (sound_exclusive _ _ (reachable_sound messages inputs)).
  - exact (sound_loading _ _ (reachable_sound messages inputs)).
Qed.

(** X11.  With a non-empty [LOADING_MESSAGES], the message shown is at
    all times one of its elements (never [undefined]), the index of a
    live interval is within the array, and less than a full period has
    passed since the interval was created or last fired. *)
Theorem loading_message_in_range (messages : list string) (inputs : list Input) :
  messages <> [] ->
  let w := play messages inputs (mounted messages) in
  (exists shown, loadingMessage (app w) = Some shown /\ In shown messages)
  /\ (forall t, interval w = Some t ->
                messageIndex t < length messages /\ sinceFire t < 2500).
Proof.
  intros Hne w.
  pose proof (reachable_sound messages inputs) as Hw. fold w in Hw.
  split.
  - destruct (sound_message _ _ Hw) as (i & Hi & Hbound).
    specialize (Hbound Hne). unfold Js.index in Hi.
    destruct (nth_error messages i) as [shown|] eqn:E.
    + exists shown. split; [exact Hi|]. exact (nth_error_In messages i E).
    + apply nth_error_None in E.
      exfalso. exact (Nat.lt_irrefl _ (Nat.lt_le_trans _ _ _ Hbound E)).
  - intros t Ht. destruct (sound_interval _ _ Hw t Ht) as (Hsince & Hindex).
    split; [exact (Hindex Hne)|exact Hsince].
Qed.

Lemma loading_message_in_range_witness :
  exists shown,
    loadingMessage
      (app (play ["Warming up"; "Stitching"]
                 (uploads ++ [ClickGenerate; Elapse 2600])%list
                 (mounted ["Warming up"; "Stitching"])))
    = Some shown
    /\ In shown ["Warming up"; "Stitching"].
Proof.
  assert (Hne : ["Warming up"; "Stitching"] <> []) by discriminate.
  exact (proj1 (loading_message_in_range
                  ["Warming up"; "Stitching"]
                  (uploads ++ [ClickGenerate; Elapse 2600])%list Hne)).
Defined.

Lemma step_keeps_loading (messages : list string) (i : Input) (w : World) :
  sound messages w ->
  isLoading (app w) = true ->
  (forall n o, i <> GenerationSettles n o) ->
  isLoading (app (step messages i w)) = true.
Proof.
  intros Hw Hl Hi.
  assert (Hslots : forall p,
             forallb slot_effect (fst (run p)) = true ->
             settled (snd (run p)) = true ->
             forall u, isLoading (app u) = true ->
                       isLoading (app (start p u)) = true).
  { intros p Hs Hd u Hu.
    destruct (start_slots p u Hs Hd) as (Ha & _ & _). rewrite Ha.
    destruct (slot_effects_keep (fst (run p)) Hs (app u)) as (_ & E & _).
    rewrite E. exact Hu. }
  destruct i as [file|file| |n r|n o|dt].
  - destruct file as [f|].
    + destruct (select_parks f (fun v => setPersonImage (Some v)) w
                             (fun _ => eq_refl)) as (next & E & _).
      change (step messages (SelectPerson (Some f)) w)
        with (start (awaitFileToImageInfo f (fun v =>
                       Call (setPersonImage (Some v)) Return)) w).
      rewrite E. exact Hl.
    + apply (Hslots (Call (setPersonImage None) Return)); auto.
  - destruct file as [f|].
    + destruct (select_parks f (fun v => setClothImage (Some v)) w
                             (fun _ => eq_refl)) as (next & E & _).
      change (step messages (SelectCloth (Some f)) w)
        with (start (awaitFileToImageInfo f (fun v =>
                       Call (setClothImage (Some v)) Return)) w).
      rewrite E. exact Hl.
    + apply (Hslots (Call (setClothImage None) Return)); auto.
  - rewrite disabled_click; [exact Hl|].
    unfold buttonDisabled. rewrite Hl.
    destruct (personImage (app w)), (clothImage (app w)); reflexivity.
  - cbn [step].
    destruct (nth_error (parked w) n) as [[| | |next]|] eqn:Hn; try exact Hl.
    destruct (nth_error_Forall well_parked (parked w) (sound_parked _ _ Hw)
                               n _ Hn r) as (Hs & Hd).
    apply Hslots; assumption.
  - exfalso. exact (Hi n o eq_refl).
  - cbn [step]. destruct (interval w) as [t|] eqn:Ht.
    + rewrite (elapse_live messages dt w t Ht). exact Hl.
    + rewrite (elapse_idle messages dt w Ht). exact Hl.
Qed.

(** X12.  Once loading has begun, only the outcome of the outstanding
    call ends it: selecting or clearing files, reads that settle, clicks
    and any amount of time leave [isLoading] at [true] (there is no
    timeout and no cancellation).  The outstanding call is parked, and
    when it settles, either way, the handler's continuation runs,
    [isLoading] becomes [false], the interval is cleared and no call is
    outstanding. *)
Theorem loading_ends_only_by_settling
        (messages : list string) (inputs : list Input) :
  let w := play messages inputs (mounted messages) in
  isLoading (app w) = true ->
  (forall i, (forall n o, i <> GenerationSettles n o) ->
             isLoading (app (step messages i w)) = true)
  /\ exists n,
       forall o,
         let w' := step messages (GenerationSettles n o) w in
         app w' = after (closing o) (app w)
         /\ isLoading (app w') = false
         /\ interval w' = None
         /\ outstanding w' = 0.
Proof.
  intros w Hl.
  pose proof (reachable_sound messages inputs) as Hw. fold w in Hw.
  split.
  - intros i Hi. exact (step_keeps_loading messages i w Hw Hl Hi).
  - pose proof (sound_outstanding _ _ Hw) as Ho. rewrite Hl in Ho.
    destruct (filter_finds awaits_generation (parked w)) as (n & st & Hn & Hst).
    { unfold outstanding in Ho. intros E. rewrite E in Ho. discriminate Ho. }
    destruct st as [| |next|]; try discriminate Hst.
    exists n. intros o w'. subst w'.
    rewrite (settle_ends_loading messages n o w next Hw Hn).
    destruct (outstanding_call_loading messages n w next Hw Hn) as (_ & Hz & _).
    cbn [app interval]. split; [reflexivity|].
    split; [destruct o; reflexivity|]. split; [reflexivity|exact Hz].
Qed.

Lemma loading_ends_only_by_settling_witness :
  let w := play [] (uploads ++ [ClickGenerate])%list (mounted []) in
  isLoading (app (step [] (Elapse 4000) w)) = true.
Proof.
  refine (proj1 (loading_ends_only_by_settling
                   [] (uploads ++ [ClickGenerate])%list eq_refl)
                (Elapse 4000) _).
  discriminate.
Defined.

(** ** The handler called while a request is outstanding *)

Lemma start_opening (w : World) (person cloth : ImageInfo) :
  personImage (app w) = Some person ->
  clothImage (app w) = Some cloth ->
  exists next,
    start (handleGenerate (app w)) w
    = mkWorld (after (opening person cloth) (app w))
              (if isLoading (app w) then interval w else Some (mkInterval 0 0))
              (parked w ++ [AwaitingGenerate next])%list
    /\ forall o, run (next o) = (closing o, Fulfilled).
Proof.
  intros Hp Hc.
  destruct (handleGenerate_awaits (app w) person cloth Hp Hc)
    as (next & Hrun & Hnext).
  exists next. split; [|exact Hnext].
  unfold start. rewrite Hrun. unfold opening, performAll. cbn [fold_left].
  destruct (isLoading (app w)) eqn:Hl.
  - rewrite (perform_same_loading (Wrote (setIsLoading true)) w)
      by (rewrite Hl; reflexivity).
    rewrite !perform_same_loading by reflexivity. reflexivity.
  - rewrite (perform_other_loading (Wrote (setIsLoading true)) w)
      by (rewrite Hl; reflexivity).
    rewrite !perform_same_loading by reflexivity.
    rewrite Hl. reflexivity.
Qed.

(** X13.  [handleGenerate] itself does not look at [isLoading]; only the
    button keeps it from running twice.  Called a second time while its
    first call of the service is outstanding, it issues a second call
    without restarting the interval, and as soon as the first call
    settles [isLoading] is [false], the interval is gone and the button
    is enabled although the second call is still outstanding. *)
Theorem handler_does_not_check_loading
        (messages : list string) (w : World) (person cloth : ImageInfo)
        (o : GenOutcome) :
  personImage (app w) = Some person ->
  clothImage (app w) = Some cloth ->
  let once := start (handleGenerate (app w)) w in
  let twice := start (handleGenerate (app once)) once in
  let settled_first :=
    step messages (GenerationSettles (length (parked w)) o) twice in
  outstanding twice = outstanding w + 2
  /\ interval twice = interval once
  /\ isLoading (app settled_first) = false
  /\ interval settled_first = None
  /\ buttonDisabled (app settled_first) = false
  /\ outstanding settled_first = outstanding w + 1.
Proof.
  intros Hp Hc once twice settled_first.
  destruct (start_opening w person cloth Hp Hc) as (next1 & E1 & Hnext1).
  fold once in E1.
  assert (Hp1 : personImage (app once) = Some person) by (rewrite E1; exact Hp).
  assert (Hc1 : clothImage (app once) = Some cloth) by (rewrite E1; exact Hc).
  destruct (start_opening once person cloth Hp1 Hc1) as (next2 & E2 & Hnext2).
  fold twice in E2.
  assert (Hl1 : isLoading (app once) = true) by (rewrite E1; reflexivity).
  rewrite Hl1 in E2.
  assert (Hparked : parked twice
                    = ((parked w ++ [AwaitingGenerate next1])
                         ++ [AwaitingGenerate next2])%list).
  { rewrite E2. cbn [parked]. rewrite E1. reflexivity. }
  destruct (parked_pair (parked w) (AwaitingGenerate next1)
                        (AwaitingGenerate next2)) as (_ & _ & Hn & Hrem).
  assert (Hcount : forall sts,
             length (filter awaits_generation (parked w ++ sts)%list)
             = outstanding w + length (filter awaits_generation sts)).
  { intros sts. unfold outstanding. rewrite filter_app, length_app.
    reflexivity. }
  assert (Hsettle : settled_first
                    = mkWorld (after (closing o) (app twice)) None
                              (parked w ++ [AwaitingGenerate next2])%list).
  { subst settled_first. cbn [step]. rewrite Hparked, Hn.
    unfold start. rewrite Hnext1.
    rewrite performAll_closing
      by (unfold unpark; cbn [app]; rewrite E2; reflexivity).
    unfold unpark. cbn [app interval parked]. rewrite Hparked, Hrem.
    reflexivity. }
  split; [|split; [|split; [|split; [|split]]]].
  - unfold outstanding at 1. rewrite Hparked, <- app_assoc.
    rewrite Hcount. reflexivity.
  - rewrite E2. reflexivity.
  - rewrite Hsettle. destruct o; reflexivity.
  - rewrite Hsettle. reflexivity.
  - rewrite Hsettle, E2. cbn [app]. unfold buttonDisabled.
    destruct o; cbn; rewrite Hp1, Hc1; reflexivity.
  - rewrite Hsettle. unfold outstanding at 1. cbn [parked].
    rewrite Hcount. reflexivity.
Qed.

Lemma handler_does_not_check_loading_witness :
  let w := mkWorld ready None [] in
  let once := start (handleGenerate (app w)) w in
  let twice := start (handleGenerate (app once)) once in
  isLoading (app (step [] (GenerationSettles 0 (Resolved "XYZ")) twice)) = false.
Proof.
  exact (proj1 (proj2 (proj2
           (handler_does_not_check_loading [] (mkWorld ready None [])
              portrait shirt (Resolved "XYZ") eq_refl eq_refl)))).
Defined.

(** ** The rotation among the other events *)









